(** * Shallow embedding of the Miri/GenMC adapter (genmc-sys, MiriInterface.{hpp,cpp})

    The adapter [MiriGenMCShim] keeps three pieces of state of its own:
    the per-thread [globalInstructions] table of [Action]s, the table
    [initVals_] of initial values and the spin-loop [annotation_id] table.
    The GenMC driver it forwards to is external: it is modelled as an oracle
    [Engine] that answers each submitted label, and that may call back the
    old-value setter closure passed alongside loads and stores.  Every label
    handed to the engine is appended to a trace, so that statements can talk
    about what was (not) submitted. *)

From Stdlib Require Import ZArith Lia.
From stdpp Require Import base gmap list strings.

Open Scope Z_scope.

(** ** Basic data *)

(** [SVal] of GenMC: a 64-bit value. *)
Abbreviation SVal := Z (only parsing).

Abbreviation SAddr := Z (only parsing).

(** [GenmcScalar]: value, extra word and the initialization flag. *)
Record GenmcScalar := mkScalar {
  value : Z;
  extra : Z;
  is_init : bool
}.

Definition GenmcScalar_eqb (a b : GenmcScalar) : bool :=
  (value a =? value b) && (extra a =? extra b) && Bool.eqb (is_init a) (is_init b).

(** Modelled from the spec: [GenmcScalar::toSVal] and the converting
    constructor [GenmcScalar(SVal)] live in genmc-sys's Rust side, which is
    not part of these sources; a scalar built from an [SVal] is an
    initialized value, and [toSVal] reads its value word. *)
Definition toSVal (s : GenmcScalar) : SVal := value s.

Definition GenmcScalar_of_SVal (v : SVal) : GenmcScalar :=
  {| value := v; extra := 0; is_init := true |}.

Inductive MemOrdering := NotAtomic | Relaxed | Acquire | Release | AcquireRelease | SequentiallyConsistent.

Inductive ActionKind := Load | NonLoad.

Record Event := mkEvent { ev_thread : Z; ev_index : Z }.

Record Action := mkAction { event : Event; kind : ActionKind }.

Inductive StoreEventType := Normal | ReadModifyWrite | CompareExchange | MutexUnlockWrite.

Inductive RMWBinOp := Xchg | Add | Sub | And | Nand | Or | Xor | Max | Min | UMax | UMin.

(** Graph labels, with the operands the adapter puts in them. *)
Inductive EventLabel :=
| ReadLabel (pos : Event) (ord : MemOrdering) (loc : SAddr) (size : Z)
| FaiReadLabel (pos : Event) (ord : MemOrdering) (loc : SAddr) (size : Z) (op : RMWBinOp) (rhs : SVal)
| CasReadLabel (pos : Event) (ord : MemOrdering) (loc : SAddr) (size : Z) (expected new : SVal)
| WriteLabel (pos : Event) (ord : MemOrdering) (loc : SAddr) (size : Z) (val : SVal)
| FaiWriteLabel (pos : Event) (ord : MemOrdering) (loc : SAddr) (size : Z) (val : SVal)
| CasWriteLabel (pos : Event) (ord : MemOrdering) (loc : SAddr) (size : Z) (val : SVal)
| UnlockWriteLabel (pos : Event) (ord : MemOrdering) (loc : SAddr) (size : Z) (val : SVal)
| LockCasReadLabel (pos : Event) (loc : SAddr) (size : Z) (annot : N)
| LockCasWriteLabel (pos : Event) (loc : SAddr) (size : Z)
| TrylockCasReadLabel (pos : Event) (loc : SAddr) (size : Z)
| TrylockCasWriteLabel (pos : Event) (loc : SAddr) (size : Z)
| LockNotAcqBlockLabel (pos : Event)
| UserBlockLabel (pos : Event)
| ThreadCreateLabel (pos : Event) (child parent : Z)
| ThreadJoinLabel (pos : Event) (child : Z)
| ThreadFinishLabel (pos : Event) (ret : SVal)
| FenceLabel (pos : Event) (ord : MemOrdering)
| MallocLabel (pos : Event) (size alignment : Z)
| FreeLabel (pos : Event) (addr : SAddr) (size : Z).

Definition is_block_label (l : EventLabel) : bool :=
  match l with LockNotAcqBlockLabel _ | UserBlockLabel _ => true | _ => false end.

(** Modelled from the spec: [LoadResult] and [StoreResult] come from the
    GenMC side; a load yields a value, a "no value" indicator
    ([is_read_opt]) or an error, a store yields an error or success. *)
Record LoadResult := mkLoadResult {
  is_read_opt : bool;
  lr_error : option string;
  scalar : GenmcScalar
}.

Definition is_error (r : LoadResult) : bool := bool_decide (lr_error r <> None).
Definition has_value (r : LoadResult) : bool := negb (is_read_opt r) && negb (is_error r).
Definition getValue (r : LoadResult) : SVal := toSVal (scalar r).

Record StoreResult := mkStoreResult {
  sr_error : option string;
  isCoMaxWrite : bool
}.

Definition store_is_error (r : StoreResult) : bool := bool_decide (sr_error r <> None).

Inductive ReadModifyWriteResult :=
| RMWError (msg : string)
| RMWOk (old_value new_value : SVal) (is_co_max : bool).

Inductive CompareExchangeResult :=
| CASError (msg : string)
| CASFailure (old_value : SVal)
| CASSuccess (old_value : SVal) (is_co_max : bool).

Record MutexLockResult := mkMutexLockResult {
  is_lock_acquired : bool;
  mutex_error : option string
}.

(** The coherence-order-maximal label of an address, as seen by
    [handleOldVal] through [g.co_max(addr)]. *)
Inductive CoLabel :=
| CoWrite (is_not_atomic : bool)
| CoInit
| CoOther.

(** ** Adapter state and the abort-aware state monad *)

Record Shim := mkShim {
  globalInstructions : list Action;
  initVals_ : gmap Z GenmcScalar;
  annotation_id : gmap Z N;
  annotation_id_counter : N;
  submitted : list EventLabel;          (** labels handed to the engine *)
  graph_fixups : list (SAddr * SVal)    (** [wLab->setVal] on non-atomic co-max writes *)
}.

(** [Bug]: [BUG]/[BUG_ON]; [Error]: [ERROR]/[ERROR_ON]; [Undefined]:
    undefined behaviour (null dereference, unchecked out-of-range index). *)
Inductive Abort := Bug | Error | Undefined.

Inductive Outcome (A : Type) :=
| Done (a : A) (s : Shim)
| Aborted (k : Abort).
Arguments Done {A}.
Arguments Aborted {A}.

Definition M (A : Type) := Shim -> Outcome A.

Definition ret {A} (a : A) : M A := fun s => Done a s.
Definition bind {A B} (m : M A) (f : A -> M B) : M B :=
  fun s => match m s with Done a s' => f a s' | Aborted k => Aborted k end.
Definition abort {A} (k : Abort) : M A := fun _ => Aborted k.
Definition get : M Shim := fun s => Done s s.
Definition put (s : Shim) : M unit := fun _ => Done tt s.

Notation "x <- c1 ;; c2" := (bind c1 (fun x => c2))
  (at level 100, c1 at next level, right associativity).
Notation "c1 ;;; c2" := (bind c1 (fun _ => c2))
  (at level 100, right associativity).

Definition BUG_ON (b : bool) : M unit := if b then abort Bug else ret tt.

Definition set_initVals (s : Shim) (m : gmap Z GenmcScalar) : Shim :=
  {| globalInstructions := globalInstructions s; initVals_ := m;
     annotation_id := annotation_id s; annotation_id_counter := annotation_id_counter s;
     submitted := submitted s; graph_fixups := graph_fixups s |}.

Definition add_fixup (s : Shim) (f : SAddr * SVal) : Shim :=
  {| globalInstructions := globalInstructions s; initVals_ := initVals_ s;
     annotation_id := annotation_id s; annotation_id_counter := annotation_id_counter s;
     submitted := submitted s; graph_fixups := graph_fixups s ++ [f] |}.

(** ** Initial-value bridge: [MiriGenMCShim::handleOldVal] *)

(** [initVals_.insert(std::make_pair(addr, value))]: returns the iterator's
    value (the existing one when the key is present) and whether it inserted. *)
Definition map_insert_pair (m : gmap Z GenmcScalar) (addr : Z) (v : GenmcScalar)
  : gmap Z GenmcScalar * (GenmcScalar * bool) :=
  match m !! addr with
  | Some old => (m, (old, false))
  | None => (<[addr := v]> m, (v, true))
  end.

Definition handleOldVal (addr : SAddr) (v : GenmcScalar) (coLab : CoLabel) : M unit :=
  s <- get ;;
  match coLab with
  | CoWrite not_atomic =>
      if negb (is_init v) then ret tt
      else if not_atomic then put (add_fixup s (addr, toSVal v))
      else ret tt
  | CoInit =>
      if is_init v then
        let '(m', (found, inserted)) := map_insert_pair (initVals_ s) addr v in
        put (set_initVals s m') ;;;
        BUG_ON (inserted && negb (GenmcScalar_eqb found v))  (* Attempt to replace initial value *)
      else ret tt
  | CoOther => abort Bug  (* Invalid label *)
  end.

(** The [initValGetter] lambda registered in [createHandle]. *)
Definition initValGetter (initVals : gmap Z GenmcScalar) (addr : SAddr) : SVal :=
  match initVals !! addr with
  | None => 3422604288  (* 0xCC00CC00 *)
  | Some result => if negb (is_init result) then 4278255360  (* 0xFF00FF00 *)
                   else toSVal result
  end.

(** ** The external GenMC driver, as an oracle

    [eng_load]/[eng_store] answer a submitted read/write label; the list they
    return is the sequence of calls the driver makes, during its own
    resolution, to the old-value setter closure ([oldValSetter]), each with
    the address and the coherence-order-maximal label it sees at that time. *)
Record Engine := mkEngine {
  eng_load : EventLabel -> list (SAddr * CoLabel) * LoadResult;
  eng_store : EventLabel -> list (SAddr * CoLabel) * StoreResult;
  eng_join : EventLabel -> option SVal;
  eng_create : EventLabel -> Z;
  eng_malloc : EventLabel -> Z;
  eng_schedule : list Action -> option Z
}.

Definition set_globalInstructions (s : Shim) (gi : list Action) : Shim :=
  {| globalInstructions := gi; initVals_ := initVals_ s;
     annotation_id := annotation_id s; annotation_id_counter := annotation_id_counter s;
     submitted := submitted s; graph_fixups := graph_fixups s |}.

Definition set_annotations (s : Shim) (m : gmap Z N) (c : N) : Shim :=
  {| globalInstructions := globalInstructions s; initVals_ := initVals_ s;
     annotation_id := m; annotation_id_counter := c;
     submitted := submitted s; graph_fixups := graph_fixups s |}.

Definition add_label (s : Shim) (l : EventLabel) : Shim :=
  {| globalInstructions := globalInstructions s; initVals_ := initVals_ s;
     annotation_id := annotation_id s; annotation_id_counter := annotation_id_counter s;
     submitted := submitted s ++ [l]; graph_fixups := graph_fixups s |}.

Definition submit (l : EventLabel) : M unit := s <- get ;; put (add_label s l).

Fixpoint run_old_val_setter (old_val : GenmcScalar) (calls : list (SAddr * CoLabel)) : M unit :=
  match calls with
  | [] => ret tt
  | (addr, co) :: rest => handleOldVal addr old_val co ;;; run_old_val_setter old_val rest
  end.

Section Driver.
Variable E : Engine.

Definition driver_handleLoad (l : EventLabel) (old_val : GenmcScalar) : M LoadResult :=
  submit l ;;;
  let '(calls, r) := eng_load E l in
  run_old_val_setter old_val calls ;;; ret r.

Definition driver_handleStore (l : EventLabel) (old_val : GenmcScalar) : M StoreResult :=
  submit l ;;;
  let '(calls, r) := eng_store E l in
  run_old_val_setter old_val calls ;;; ret r.

Definition driver_handleJoin (l : EventLabel) : M (option SVal) :=
  submit l ;;; ret (eng_join E l).

Definition driver_handleCreate (l : EventLabel) : M Z :=
  submit l ;;; ret (eng_create E l).

Definition driver_handleMalloc (l : EventLabel) : M Z :=
  submit l ;;; ret (eng_malloc E l).

End Driver.

(** ** Position tracker *)

(** [tid >= globalInstructions.size()] compares an [int] with a [size_t]:
    a negative id converts to a huge unsigned value. *)
Definition uge (a : Z) (n : nat) : bool := (a <? 0) || (Z.of_nat n <=? a).
Definition ugt (a : Z) (n : nat) : bool := (a <? 0) || (Z.of_nat n <? a).

Definition shift_pos (gi : list Action) (tid : Z) (d : Z) : list Action :=
  match gi !! Z.to_nat tid with
  | Some a => <[Z.to_nat tid := mkAction (mkEvent (ev_thread (event a)) (ev_index (event a) + d))
                                         (kind a)]> gi
  | None => gi
  end.

Definition pos_of (s : Shim) (tid : Z) : option Event :=
  a ← globalInstructions s !! Z.to_nat tid; Some (event a).

(** [++globalInstructions[tid].event] (resp. [--]) after a bounds check that
    aborts with [k]: [incPos]/[decPos] use [ERROR_ON]; the mutex functions
    go through an unchecked [operator[]] reference, undefined out of range. *)
Definition step_pos (k : Abort) (tid : Z) (d : Z) : M Event :=
  s <- get ;;
  if uge tid (length (globalInstructions s)) then abort k
  else
    let gi := shift_pos (globalInstructions s) tid d in
    put (set_globalInstructions s gi) ;;;
    match gi !! Z.to_nat tid with
    | Some a => ret (event a)
    | None => abort k
    end.

Definition incPos (tid : Z) : M Event := step_pos Error tid 1.
Definition decPos (tid : Z) : M Event := step_pos Error tid (-1).
Definition incRef (tid : Z) : M Event := step_pos Undefined tid 1.
Definition decRef (tid : Z) : M Event := step_pos Undefined tid (-1).

(** [*ptr] on a [std::unique_ptr]. *)
Definition deref {A} (p : option A) : M A :=
  match p with Some a => ret a | None => abort Undefined end.

(** ** Operation lowering *)

(** Modelled from the spec: GenMC's [executeRMWBinOp] is not part of these
    sources; per the spec the result is [old OP rhs] evaluated at the bit
    width of the access, wrapping modulo 2^(8*size).  The signed [Max]/[Min]
    read their operands as two's-complement numbers of that width. *)
Definition wrap (size : Z) (v : Z) : Z := v mod 2 ^ (8 * size).

Definition to_signed (size : Z) (v : Z) : Z :=
  let w := wrap size v in
  if 2 ^ (8 * size - 1) <=? w then w - 2 ^ (8 * size) else w.

Definition rmw_math (op : RMWBinOp) (size a b : Z) : Z :=
  match op with
  | Xchg => b
  | Add => a + b
  | Sub => a - b
  | And => Z.land a b
  | Nand => Z.lnot (Z.land a b)
  | Or => Z.lor a b
  | Xor => Z.lxor a b
  | Max => Z.max (to_signed size a) (to_signed size b)
  | Min => Z.min (to_signed size a) (to_signed size b)
  | UMax => Z.max (wrap size a) (wrap size b)
  | UMin => Z.min (wrap size a) (wrap size b)
  end.

Definition executeRMWBinOp (oldVal rhsVal : SVal) (size : Z) (op : RMWBinOp) : SVal :=
  wrap size (rmw_math op size oldVal rhsVal).

Section Shim.
Variable E : Engine.

Definition handleLoad (thread_id : Z) (address size : Z) (ord : MemOrdering)
    (old_val : GenmcScalar) : M LoadResult :=
  pos <- incPos thread_id ;;
  driver_handleLoad E (ReadLabel pos ord address size) old_val.

Definition handleStore (thread_id : Z) (address size : Z) (v old_val : GenmcScalar)
    (ord : MemOrdering) (store_event_type : StoreEventType) : M StoreResult :=
  pos <- incPos thread_id ;;
  let val := toSVal v in
  let wLab := match store_event_type with
              | Normal => WriteLabel pos ord address size val
              | ReadModifyWrite => FaiWriteLabel pos ord address size val
              | CompareExchange => CasWriteLabel pos ord address size val
              | MutexUnlockWrite => UnlockWriteLabel pos ord address size val
              end in
  driver_handleStore E wLab old_val.

Definition handleReadModifyWrite (thread_id : Z) (address size : Z)
    (loadOrd store_ordering : MemOrdering) (rmw_op : RMWBinOp)
    (rhs_value old_val : GenmcScalar) : M ReadModifyWriteResult :=
  pos <- incPos thread_id ;;
  let rhsVal := toSVal rhs_value in
  result <- driver_handleLoad E (FaiReadLabel pos loadOrd address size rmw_op rhsVal) old_val ;;
  match lr_error result with
  | Some error => ret (RMWError error)
  | None =>
      let oldVal := toSVal (scalar result) in
      let newVal := executeRMWBinOp oldVal rhsVal size rmw_op in
      store_result <- handleStore thread_id address size (GenmcScalar_of_SVal newVal) old_val
                        store_ordering ReadModifyWrite ;;
      if store_is_error store_result then
        e <- deref (sr_error store_result) ;; ret (RMWError e)
      else ret (RMWOk oldVal newVal (isCoMaxWrite store_result))
  end.

Definition handleCompareExchange (thread_id : Z) (address size : Z)
    (expected_value new_value old_val : GenmcScalar)
    (success_load_ordering success_store_ordering fail_load_ordering : MemOrdering)
    (can_fail_spuriously : bool) : M CompareExchangeResult :=
  pos <- incPos thread_id ;;
  let expectedVal := toSVal expected_value in
  let newVal := toSVal new_value in
  result <- driver_handleLoad E
              (CasReadLabel pos success_load_ordering address size expectedVal newVal) old_val ;;
  match lr_error result with
  | Some error => ret (CASError error)
  | None =>
      let oldVal := toSVal (scalar result) in
      if negb (oldVal =? expectedVal) then ret (CASFailure oldVal)
      else
        store_result <- handleStore thread_id address size (GenmcScalar_of_SVal newVal) old_val
                          success_store_ordering CompareExchange ;;
        if store_is_error store_result then
          e <- deref (sr_error store_result) ;; ret (CASError e)
        else ret (CASSuccess oldVal (isCoMaxWrite store_result))
  end.

Definition handleFence (thread_id : Z) (ord : MemOrdering) : M unit :=
  pos <- incPos thread_id ;;
  submit (FenceLabel pos ord).

Definition handleMalloc (thread_id : Z) (size alignment : Z) : M Z :=
  BUG_ON (size =? 0) ;;;
  pos <- incPos thread_id ;;
  retVal <- driver_handleMalloc E (MallocLabel pos size alignment) ;;
  BUG_ON (retVal =? 0) ;;;
  ret retVal.

Definition handleFree (thread_id : Z) (address size : Z) : M unit :=
  BUG_ON (size =? 0) ;;;
  BUG_ON (address =? 0) ;;;
  pos <- incPos thread_id ;;
  submit (FreeLabel pos address size).

(** ** Thread lifecycle *)

Definition handleThreadCreate (thread_id parent_id : Z) : M unit :=
  pos <- incPos parent_id ;;
  createLab_child <- driver_handleCreate E (ThreadCreateLabel pos thread_id parent_id) ;;
  let genmcTid := createLab_child in
  BUG_ON (negb (genmcTid =? thread_id)) ;;;
  BUG_ON (genmcTid =? -1) ;;;
  s <- get ;;
  let gi := globalInstructions s in
  BUG_ON (ugt genmcTid (length gi)) ;;;
  let fresh := mkAction (mkEvent genmcTid 0) Load in
  if uge genmcTid (length gi) then put (set_globalInstructions s (gi ++ [fresh]))
  else put (set_globalInstructions s (<[Z.to_nat genmcTid := fresh]> gi)).

Definition handleThreadJoin (thread_id child_id : Z) : M unit :=
  pos <- incPos thread_id ;;
  res <- driver_handleJoin E (ThreadJoinLabel pos child_id) ;;
  match res with
  | Some _ => ret tt
  | None => decPos thread_id ;;; ret tt
  end.

Definition handleThreadFinish (thread_id : Z) (ret_val : Z) : M unit :=
  pos <- incPos thread_id ;;
  submit (ThreadFinishLabel pos ret_val).

Definition handleUserBlock (thread_id : Z) : M unit :=
  pos <- incPos thread_id ;;
  submit (UserBlockLabel pos).

(** ** Mutex protocol *)

Definition MutexLockResult_fromError (msg : string) : MutexLockResult :=
  {| is_lock_acquired := false; mutex_error := Some msg |}.

Definition MutexLockResult_of (b : bool) : MutexLockResult :=
  {| is_lock_acquired := b; mutex_error := None |}.

(** The spin-loop annotation [RegisterExpr(annot_id) != 1] is represented
    by its annotation id. *)
Definition get_annot_id (address : Z) : M N :=
  s <- get ;;
  match annotation_id s !! address with
  | Some id => ret id
  | None =>
      let id := annotation_id_counter s in
      put (set_annotations s (<[address := id]> (annotation_id s)) (id + 1)%N) ;;;
      ret id
  end.

Definition handleMutexLock (thread_id : Z) (address size : Z) : M MutexLockResult :=
  annot_id <- get_annot_id address ;;
  pos <- incRef thread_id ;;
  (* Mutex starts out unlocked, so we always say the previous value is "unlocked". *)
  let unlocked := GenmcScalar_of_SVal 0 in
  loadResult <- driver_handleLoad E (LockCasReadLabel pos address size annot_id) unlocked ;;
  if is_error loadResult then
    decRef thread_id ;;;
    e <- deref (lr_error loadResult) ;; ret (MutexLockResult_fromError e)
  else if is_read_opt loadResult then
    decRef thread_id ;;; ret (MutexLockResult_of false)
  else
    let is_lock_acquired := getValue loadResult =? 0 in
    if is_lock_acquired then
      wpos <- incRef thread_id ;;
      storeResult <- driver_handleStore E (LockCasWriteLabel wpos address size) unlocked ;;
      if store_is_error storeResult then
        e <- deref (sr_error storeResult) ;; ret (MutexLockResult_fromError e)
      else ret (MutexLockResult_of is_lock_acquired)
    else
      bpos <- incRef thread_id ;;
      submit (LockNotAcqBlockLabel bpos) ;;;
      ret (MutexLockResult_of is_lock_acquired).

Definition handleMutexTryLock (thread_id : Z) (address size : Z) : M MutexLockResult :=
  pos <- incRef thread_id ;;
  let unlocked := GenmcScalar_of_SVal 0 in
  loadResult <- driver_handleLoad E (TrylockCasReadLabel pos address size) unlocked ;;
  if negb (has_value loadResult) then
    decRef thread_id ;;;
    e <- deref (lr_error loadResult) ;; ret (MutexLockResult_fromError e)
  else
    let is_lock_acquired := getValue loadResult =? 0 in
    if negb is_lock_acquired then ret (MutexLockResult_of false)  (* Lock already held. *)
    else
      wpos <- incRef thread_id ;;
      storeResult <- driver_handleStore E (TrylockCasWriteLabel wpos address size) unlocked ;;
      if store_is_error storeResult then
        e <- deref (sr_error storeResult) ;; ret (MutexLockResult_fromError e)
      else ret (MutexLockResult_of true).

Definition handleMutexUnlock (thread_id : Z) (address size : Z) : M StoreResult :=
  handleStore thread_id address size (GenmcScalar_of_SVal 0)
    (GenmcScalar_of_SVal 3735928559 (* 0xDEADBEEF *)) Release MutexUnlockWrite.

(** ** Scheduling bridge *)

Definition set_kind (gi : list Action) (tid : Z) (k : ActionKind) : list Action :=
  match gi !! Z.to_nat tid with
  | Some a => <[Z.to_nat tid := mkAction (event a) k]> gi
  | None => gi
  end.

Definition scheduleNext (curr_thread_id : Z) (curr_thread_next_instr_kind : ActionKind) : M Z :=
  s <- get ;;
  if uge curr_thread_id (length (globalInstructions s)) then abort Undefined
  else
    let gi := set_kind (globalInstructions s) curr_thread_id curr_thread_next_instr_kind in
    put (set_globalInstructions s gi) ;;;
    match eng_schedule E gi with
    | Some t => ret t
    | None => ret (-1)
    end.

End Shim.

(** ** Concrete states and engines used by the examples *)

(** The state built by the constructor: only the main thread, at
    [Event::getInit()]. *)
Definition init_shim : Shim :=
  {| globalInstructions := [mkAction (mkEvent 0 0) Load]; initVals_ := ∅;
     annotation_id := ∅; annotation_id_counter := 0%N; submitted := []; graph_fixups := [] |}.

Definition scalar_of (v : Z) : GenmcScalar := GenmcScalar_of_SVal v.

(** An engine giving the same answers to every label; every read/write
    calls the old-value setter once per entry of [calls]. *)
Definition const_engine (calls : list (SAddr * CoLabel)) (lr : LoadResult) (sr : StoreResult)
    (join : option SVal) (addr : Z) (sched : option Z) : Engine :=
  {| eng_load := fun _ => (calls, lr); eng_store := fun _ => (calls, sr);
     eng_join := fun _ => join; eng_create := fun l =>
       match l with ThreadCreateLabel _ c _ => c | _ => -1 end;
     eng_malloc := fun _ => addr; eng_schedule := fun _ => sched |}.

Definition load_value (v : Z) : LoadResult := mkLoadResult false None (scalar_of v).
Definition load_no_value : LoadResult := mkLoadResult true None (mkScalar 0 0 false).
Definition load_error (msg : string) : LoadResult := mkLoadResult false (Some msg) (mkScalar 0 0 false).
Definition store_ok : StoreResult := mkStoreResult None true.
Definition store_error (msg : string) : StoreResult := mkStoreResult (Some msg) false.

(** ** Operations issued on one thread, for the position bookkeeping *)

Inductive Op :=
| OpLoad (address size : Z) (ord : MemOrdering) (old_val : GenmcScalar)
| OpStore (address size : Z) (v old_val : GenmcScalar) (ord : MemOrdering) (ty : StoreEventType)
| OpRMW (address size : Z) (lo so : MemOrdering) (op : RMWBinOp) (rhs old_val : GenmcScalar)
| OpCAS (address size : Z) (expected new old_val : GenmcScalar) (slo sso flo : MemOrdering) (weak : bool)
| OpFence (ord : MemOrdering)
| OpMalloc (size alignment : Z)
| OpFree (address size : Z)
| OpCreate (child : Z)
| OpJoin (child : Z)
| OpFinish (ret_val : Z)
| OpUserBlock
| OpLock (address size : Z)
| OpTryLock (address size : Z)
| OpUnlock (address size : Z).

Definition run_op (E : Engine) (t : Z) (op : Op) : M unit :=
  match op with
  | OpLoad a sz ord old => handleLoad E t a sz ord old ;;; ret tt
  | OpStore a sz v old ord ty => handleStore E t a sz v old ord ty ;;; ret tt
  | OpRMW a sz lo so o rhs old => handleReadModifyWrite E t a sz lo so o rhs old ;;; ret tt
  | OpCAS a sz e n old slo sso flo w => handleCompareExchange E t a sz e n old slo sso flo w ;;; ret tt
  | OpFence ord => handleFence t ord
  | OpMalloc sz al => handleMalloc E t sz al ;;; ret tt
  | OpFree a sz => handleFree t a sz
  | OpCreate c => handleThreadCreate E c t
  | OpJoin c => handleThreadJoin E t c
  | OpFinish rv => handleThreadFinish t rv
  | OpUserBlock => handleUserBlock t
  | OpLock a sz => handleMutexLock E t a sz ;;; ret tt
  | OpTryLock a sz => handleMutexTryLock E t a sz ;;; ret tt
  | OpUnlock a sz => handleMutexUnlock E t a sz ;;; ret tt
  end.

(** Whether the engine's answer to [l], the first label the operation
    submits, makes the operation take its advance back: a [Lock] read that
    errs or resolves no value, a [TryLock] read without a value, a [Join]
    without a value. *)
Definition retracts (E : Engine) (op : Op) (l : EventLabel) : bool :=
  match op with
  | OpLock _ _ => let r := snd (eng_load E l) in is_error r || is_read_opt r
  | OpTryLock _ _ => negb (has_value (snd (eng_load E l)))
  | OpJoin _ => bool_decide (eng_join E l = None)
  | _ => false
  end.

Definition shift_event (d : Z) (p : Event) : Event := mkEvent (ev_thread p) (ev_index p + d).

(** [s'] is [s] with thread [t] moved by [d] and the labels [new] submitted. *)
Definition moves (t d : Z) (new : list EventLabel) (s s' : Shim) : Prop :=
  pos_of s' t = option_map (shift_event d) (pos_of s t) /\
  submitted s' = submitted s ++ new.

(** The position bookkeeping of one operation issued on thread [t]: the
    thread moves by one per label submitted, minus one when the engine's
    answer to the first label makes the operation take its advance back. *)
Definition accounted (E : Engine) (t : Z) (op : Op) (s s' : Shim) : Prop :=
  exists p new, pos_of s t = Some p /\ submitted s' = submitted s ++ new /\
    pos_of s' t = Some (shift_event (Z.of_nat (length new) -
                                     match new with
                                     | l :: _ => if retracts E op l then 1 else 0
                                     | [] => 0
                                     end) p).

(** Running a list of [handleOldVal] calls, as the engine would. *)
Fixpoint run_old_vals (calls : list (SAddr * GenmcScalar * CoLabel)) : M unit :=
  match calls with
  | [] => ret tt
  | (addr, v, co) :: rest => handleOldVal addr v co ;;; run_old_vals rest
  end.

(** Entries of the initial-value table are initialized values. *)
Definition initVals_wf (m : gmap Z GenmcScalar) : Prop :=
  forall a v, m !! a = Some v -> is_init v = true.

(** Thread [t] has a slot in the instruction table. *)
Definition registered (s : Shim) (t : Z) : Prop :=
  0 <= t < Z.of_nat (length (globalInstructions s)).

(** The label [handleStore] builds for each store kind. *)
Definition store_label (ty : StoreEventType) (pos : Event) (ord : MemOrdering) (a sz : Z) (val : SVal)
  : EventLabel :=
  match ty with
  | Normal => WriteLabel pos ord a sz val
  | ReadModifyWrite => FaiWriteLabel pos ord a sz val
  | CompareExchange => CasWriteLabel pos ord a sz val
  | MutexUnlockWrite => UnlockWriteLabel pos ord a sz val
  end.

(** ** Execution start *)


(** Miri issuing operations, each on its thread, one after another. *)
Fixpoint run_ops (E : Engine) (ops : list (Z * Op)) : M unit :=
  match ops with
  | [] => ret tt
  | (t, op) :: rest => run_op E t op ;;; run_ops E rest
  end.

(** The spin-loop annotation table: every id is below the counter, and no
    two addresses share an id. *)
Definition annot_wf (s : Shim) : Prop :=
  (forall a i, annotation_id s !! a = Some i -> (i < annotation_id_counter s)%N) /\
  (forall a b i, annotation_id s !! a = Some i -> annotation_id s !! b = Some i -> a = b).

(** How the two tables evolve: recorded initial values stay, and stay
    initialized; annotation ids stay, and stay well formed. *)
Definition evolves (s s' : Shim) : Prop :=
  (initVals_wf (initVals_ s) ->
     initVals_wf (initVals_ s') /\
     (forall a w, initVals_ s !! a = Some w -> initVals_ s' !! a = Some w)) /\
  (annot_wf s -> annot_wf s') /\
  (forall a i, annotation_id s !! a = Some i -> annotation_id s' !! a = Some i).

(** * Theorems *)

Example rmw_add_example :
  match handleReadModifyWrite (const_engine [] (load_value 7) store_ok None 0 None)
          0 4096 1 Relaxed Relaxed Add (scalar_of 255) (scalar_of 0) init_shim with
  | Done r s => r = RMWOk 7 6 true /\ length (submitted s) = 2%nat
  | Aborted _ => False
  end.
Proof. vm_compute. split; reflexivity. Qed.

(** ** Monad inversion and frame lemmas *)

Lemma bind_Done {A B} (m : M A) (f : A -> M B) s b s'' :
  bind m f s = Done b s'' -> exists a s', m s = Done a s' /\ f a s' = Done b s''.
Proof. unfold bind. destruct (m s) as [a s'|k]; [eauto | discriminate]. Qed.

Ltac inv_bind H :=
  let a := fresh "a" in let s := fresh "s" in
  let H1 := fresh "H" in let H2 := fresh "H" in
  apply bind_Done in H; destruct H as (a & s & H1 & H2).

Lemma set_initVals_same s : set_initVals s (initVals_ s) = s.
Proof. destruct s; reflexivity. Qed.

Lemma handleOldVal_frame addr v co s s' :
  handleOldVal addr v co s = Done tt s' ->
  globalInstructions s' = globalInstructions s /\ submitted s' = submitted s /\
  annotation_id s' = annotation_id s.
Proof.
  unfold handleOldVal, bind, get, put, ret, abort, BUG_ON, map_insert_pair.
  intros H. repeat case_match; unfold ret in *; simplify_eq/=; auto.
Qed.

Lemma run_old_val_setter_frame v calls s s' :
  run_old_val_setter v calls s = Done tt s' ->
  globalInstructions s' = globalInstructions s /\ submitted s' = submitted s /\
  annotation_id s' = annotation_id s.
Proof.
  revert s. induction calls as [|[addr co] rest IH]; intros s H.
  - simpl in H. inversion H; auto.
  - simpl in H. inv_bind H. destruct a.
    apply handleOldVal_frame in H0 as (? & ? & ?).
    apply IH in H1 as (? & ? & ?). repeat split; congruence.
Qed.

(** An address that already has an entry keeps it, silently. *)
Lemma handleOldVal_init_existing addr v w s :
  initVals_ s !! addr = Some w -> handleOldVal addr v CoInit s = Done tt s.
Proof.
  intros Hw. cbv beta iota zeta delta [handleOldVal bind get put ret BUG_ON map_insert_pair].
  rewrite Hw. destruct (is_init v); simpl; [rewrite set_initVals_same|]; reflexivity.
Qed.

Lemma handleOldVal_init_fresh addr v s :
  initVals_ s !! addr = None -> is_init v = true ->
  handleOldVal addr v CoInit s = Done tt (set_initVals s (<[addr := v]> (initVals_ s))).
Proof.
  intros Hn Hi. cbv beta iota zeta delta [handleOldVal bind get put ret BUG_ON map_insert_pair].
  rewrite Hn, Hi.
  assert (GenmcScalar_eqb v v = true) as ->.
  { unfold GenmcScalar_eqb. rewrite !Z.eqb_refl, Bool.eqb_reflx. reflexivity. }
  reflexivity.
Qed.

(** The table only grows, and only with initialized values. *)
Lemma handleOldVal_initVals addr v co s s' :
  handleOldVal addr v co s = Done tt s' ->
  initVals_wf (initVals_ s) ->
  initVals_wf (initVals_ s') /\
  (forall a w, initVals_ s !! a = Some w -> initVals_ s' !! a = Some w).
Proof.
  intros H Hwf.
  destruct co as [na| |]; [| |discriminate].
  - unfold handleOldVal, bind, get, put, ret in H.
    destruct (is_init v), na; simpl in H; inversion H; subst; simpl; auto.
  - destruct (initVals_ s !! addr) as [w|] eqn:Hl.
    + rewrite (handleOldVal_init_existing _ _ w) in H by exact Hl.
      inversion H; subst; auto.
    + destruct (is_init v) eqn:Hi.
      * rewrite handleOldVal_init_fresh in H by assumption.
        inversion H; subst; simpl. split.
        -- intros a w Ha. destruct (decide (a = addr)) as [->|Hne].
           ++ rewrite lookup_insert_eq in Ha. congruence.
           ++ rewrite lookup_insert_ne in Ha by congruence. eauto.
        -- intros a w Ha. destruct (decide (a = addr)) as [->|Hne]; [congruence|].
           rewrite lookup_insert_ne by congruence. exact Ha.
      * unfold handleOldVal, bind, get, ret in H. rewrite Hi in H.
        inversion H; subst; auto.
Qed.

Lemma run_old_vals_initVals calls s s' :
  run_old_vals calls s = Done tt s' ->
  initVals_wf (initVals_ s) ->
  initVals_wf (initVals_ s') /\
  (forall a w, initVals_ s !! a = Some w -> initVals_ s' !! a = Some w).
Proof.
  revert s. induction calls as [|[[addr v] co] rest IH]; intros s H Hwf.
  - simpl in H. inversion H; subst; auto.
  - simpl in H. inv_bind H. destruct a.
    apply handleOldVal_initVals in H0 as [Hwf1 Hkeep1]; [|exact Hwf].
    apply IH in H1 as [Hwf2 Hkeep2]; [|exact Hwf1].
    split; [exact Hwf2|]. intros a w Ha. auto.
Qed.

(** ** Initial-value bridge *)

(** C1 (the second, conflicting record is not rejected): the old-value
    setter records 1 for address 16 while its co-max label is the
    initializing one, then is called again with the initialized value 2 for
    the same address.  [BUG_ON(result.second && ...)] only fires when the
    insertion took place, so the second call returns normally and the table
    keeps 1. *)
Lemma handleOldVal_conflicting_initial_value_accepted :
  run_old_vals [(16, scalar_of 1, CoInit); (16, scalar_of 2, CoInit)] init_shim
  = Done tt (set_initVals init_shim {[16 := scalar_of 1]}).
Proof. vm_compute. reflexivity. Qed.

(** C7: the registered getter is a total function of the table.  Along any
    run of the old-value setter from a table of initialized values, an
    address without entry yields the placeholder 0xCC00CC00, and an address
    with a recorded entry yields that entry's value, now and after any
    further run of the setter. *)
Theorem initValGetter_returns_recorded_value
    (calls calls' : list (SAddr * GenmcScalar * CoLabel)) (s s' s'' : Shim) (a : Z) :
  initVals_wf (initVals_ s) ->
  run_old_vals calls s = Done tt s' ->
  (initVals_ s' !! a = None -> initValGetter (initVals_ s') a = 3422604288) /\
  (forall v, initVals_ s' !! a = Some v ->
     initValGetter (initVals_ s') a = toSVal v /\
     (run_old_vals calls' s' = Done tt s'' -> initValGetter (initVals_ s'') a = toSVal v)).
Proof.
  intros Hwf Hrun.
  destruct (run_old_vals_initVals _ _ _ Hrun Hwf) as [Hwf' _].
  unfold initValGetter. split.
  - intros ->. reflexivity.
  - intros v Hv. rewrite Hv. rewrite (Hwf' _ _ Hv). split; [reflexivity|].
    intros Hrun'.
    destruct (run_old_vals_initVals _ _ _ Hrun' Hwf') as [_ Hkeep].
    rewrite (Hkeep _ _ Hv), (Hwf' _ _ Hv). reflexivity.
Qed.

Lemma initValGetter_returns_recorded_value_witness :
  initVals_wf (initVals_ init_shim) /\
  run_old_vals [(16, scalar_of 5, CoInit)] init_shim
    = Done tt (set_initVals init_shim {[16 := scalar_of 5]}) /\
  ((initVals_ (set_initVals init_shim {[16 := scalar_of 5]}) !! 16 = None ->
    initValGetter (initVals_ (set_initVals init_shim {[16 := scalar_of 5]})) 16 = 3422604288) /\
   (forall v, initVals_ (set_initVals init_shim {[16 := scalar_of 5]}) !! 16 = Some v ->
     initValGetter (initVals_ (set_initVals init_shim {[16 := scalar_of 5]})) 16 = toSVal v /\
     (run_old_vals [(16, scalar_of 6, CoInit)] (set_initVals init_shim {[16 := scalar_of 5]})
        = Done tt (set_initVals init_shim {[16 := scalar_of 5]}) ->
      initValGetter (initVals_ (set_initVals init_shim {[16 := scalar_of 5]})) 16 = toSVal v))).
Proof.
  assert (Hwf : initVals_wf (initVals_ init_shim)).
  { intros a v H. simpl in H. rewrite lookup_empty in H. discriminate. }
  assert (Hrun : run_old_vals [(16, scalar_of 5, CoInit)] init_shim
                 = Done tt (set_initVals init_shim {[16 := scalar_of 5]})).
  { vm_compute. reflexivity. }
  split; [exact Hwf|]. split; [exact Hrun|].
  apply (initValGetter_returns_recorded_value [(16, scalar_of 5, CoInit)]
           [(16, scalar_of 6, CoInit)] init_shim
           (set_initVals init_shim {[16 := scalar_of 5]})
           (set_initVals init_shim {[16 := scalar_of 5]}) 16 Hwf Hrun).
Defined.

(** ** Position tracker lemmas *)

Lemma uge_false_iff t (n : nat) : uge t n = false <-> 0 <= t < Z.of_nat n.
Proof.
  unfold uge. rewrite Bool.orb_false_iff, Z.ltb_ge, Z.leb_gt. lia.
Qed.

Lemma registered_lookup s t :
  registered s t -> exists a, globalInstructions s !! Z.to_nat t = Some a.
Proof.
  intros Hr. apply lookup_lt_is_Some_2. unfold registered in Hr. lia.
Qed.

Lemma shift_pos_lookup gi t d a :
  gi !! Z.to_nat t = Some a ->
  shift_pos gi t d !! Z.to_nat t = Some (mkAction (shift_event d (event a)) (kind a)).
Proof.
  intros Ha. unfold shift_pos. rewrite Ha.
  apply list_lookup_insert_eq. eapply lookup_lt_Some. exact Ha.
Qed.

Lemma shift_pos_lookup_ne gi t t' d :
  Z.to_nat t' <> Z.to_nat t -> shift_pos gi t d !! Z.to_nat t' = gi !! Z.to_nat t'.
Proof.
  intros Hne. unfold shift_pos. destruct (gi !! Z.to_nat t); [|reflexivity].
  apply list_lookup_insert_ne. congruence.
Qed.

Lemma length_shift_pos gi t d : length (shift_pos gi t d) = length gi.
Proof. unfold shift_pos. destruct (gi !! Z.to_nat t); [apply length_insert|reflexivity]. Qed.

Lemma step_pos_ok k t d s :
  registered s t ->
  exists a, globalInstructions s !! Z.to_nat t = Some a /\
    step_pos k t d s = Done (shift_event d (event a))
                            (set_globalInstructions s (shift_pos (globalInstructions s) t d)).
Proof.
  intros Hr. destruct (registered_lookup s t Hr) as [a Ha]. exists a. split; [exact Ha|].
  unfold step_pos, bind, get, put, ret.
  assert (uge t (length (globalInstructions s)) = false) as -> by (apply uge_false_iff; exact Hr).
  simpl. rewrite (shift_pos_lookup _ _ _ _ Ha). reflexivity.
Qed.

Lemma step_pos_not_registered k t d s :
  ~ registered s t -> step_pos k t d s = Aborted k.
Proof.
  intros Hr. unfold step_pos, bind, get.
  destruct (uge t (length (globalInstructions s))) eqn:Hu; [reflexivity|].
  apply uge_false_iff in Hu. contradiction.
Qed.

Lemma step_pos_Done k t d s e s' :
  step_pos k t d s = Done e s' ->
  registered s t /\ s' = set_globalInstructions s (shift_pos (globalInstructions s) t d) /\
  exists a, globalInstructions s !! Z.to_nat t = Some a /\ e = shift_event d (event a).
Proof.
  intros H. destruct (decide (registered s t)) as [Hr|Hr].
  - destruct (step_pos_ok k t d s Hr) as (a & Ha & Hs). rewrite Hs in H.
    inversion H; subst. eauto 6.
  - rewrite step_pos_not_registered in H by exact Hr. discriminate.
Qed.

Lemma step_pos_moves k t d s e s' :
  step_pos k t d s = Done e s' -> moves t d [] s s' /\ registered s' t.
Proof.
  intros H. apply step_pos_Done in H as (Hr & -> & a & Ha & ->).
  split; [split|].
  - unfold pos_of; simpl. rewrite (shift_pos_lookup _ _ _ _ Ha), Ha. reflexivity.
  - simpl. rewrite app_nil_r. reflexivity.
  - unfold registered in *; simpl. rewrite length_shift_pos. exact Hr.
Qed.

(** ** Stores *)


Lemma bind_Done_l {A B} (m : M A) (f : A -> M B) s a s' :
  m s = Done a s' -> bind m f s = f a s'.
Proof. intros H. unfold bind. rewrite H. reflexivity. Qed.

Lemma handleStore_unfold E t a sz v old ord ty s :
  registered s t ->
  exists p, pos_of s t = Some p /\
    let l := store_label ty (shift_event 1 p) ord a sz (toSVal v) in
    handleStore E t a sz v old ord ty s =
      (run_old_val_setter old (fst (eng_store E l)) ;;; ret (snd (eng_store E l)))
        (add_label (set_globalInstructions s (shift_pos (globalInstructions s) t 1)) l).
Proof.
  intros Hr. destruct (step_pos_ok Error t 1 s Hr) as (act & Hact & Hs).
  exists (event act). split; [unfold pos_of; rewrite Hact; reflexivity|].
  unfold handleStore, incPos. rewrite (bind_Done_l _ _ _ _ _ Hs).
  unfold driver_handleStore, submit, bind, get, put.
  destruct ty; simpl; destruct (eng_store E _); reflexivity.
Qed.

(** ** Unlock and its claimed old value *)

(** C10 (as it fails): the table already holds 0 for the mutex address 16
    and the engine, resolving the unlock's store, calls the old-value setter
    while the co-max label is the initializing one: the table keeps 0 and
    does not record 0xDEADBEEF. *)
Lemma handleMutexUnlock_existing_initial_value_kept :
  match handleMutexUnlock (const_engine [(16, CoInit)] (load_value 0) store_ok None 0 None)
          0 16 8 (set_initVals init_shim {[16 := scalar_of 0]}) with
  | Done _ s => initVals_ s !! 16 = Some (scalar_of 0) /\
                initVals_ s !! 16 <> Some (scalar_of 3735928559)
  | Aborted _ => False
  end.
Proof. vm_compute. split; [reflexivity | congruence]. Qed.

(** C10 (amended): on a registered thread, [handleMutexUnlock] submits an
    unlock-write of 0 with release ordering and hands the initialized
    constant 0xDEADBEEF to the old-value setter for every call the engine
    makes to it.  Through [handleOldVal], when the co-max label is the
    initializing one and the table has no entry for the address (or already
    holds 0xDEADBEEF), 0xDEADBEEF is what the table holds afterwards; when it
    is a non-atomic write, that write is set to 0xDEADBEEF. *)
Theorem handleMutexUnlock_old_value_is_deadbeef E t a sz s :
  registered s t ->
  exists p, pos_of s t = Some p /\
    let l := UnlockWriteLabel (shift_event 1 p) Release a sz 0 in
    handleMutexUnlock E t a sz s =
      (run_old_val_setter (scalar_of 3735928559) (fst (eng_store E l)) ;;;
       ret (snd (eng_store E l)))
        (add_label (set_globalInstructions s (shift_pos (globalInstructions s) t 1)) l) /\
    (forall s0, initVals_ s0 !! a = None \/ initVals_ s0 !! a = Some (scalar_of 3735928559) ->
       exists s0', handleOldVal a (scalar_of 3735928559) CoInit s0 = Done tt s0' /\
                   initVals_ s0' !! a = Some (scalar_of 3735928559)) /\
    (forall s0, handleOldVal a (scalar_of 3735928559) (CoWrite true) s0
                = Done tt (add_fixup s0 (a, 3735928559))).
Proof.
  intros Hr. unfold handleMutexUnlock.
  destruct (handleStore_unfold E t a sz (GenmcScalar_of_SVal 0)
              (GenmcScalar_of_SVal 3735928559) Release MutexUnlockWrite s Hr) as (p & Hp & Heq).
  exists p. split; [exact Hp|]. split; [exact Heq|]. split.
  - intros s0 [Hn|Hd].
    + eexists. split.
      * apply handleOldVal_init_fresh; [exact Hn | reflexivity].
      * simpl. apply lookup_insert_eq.
    + exists s0. split; [apply (handleOldVal_init_existing _ _ _ _ Hd) | exact Hd].
  - intros s0. reflexivity.
Qed.

Lemma handleMutexUnlock_old_value_is_deadbeef_witness :
  registered init_shim 0 /\
  exists p, pos_of init_shim 0 = Some p /\
    let E := const_engine [(16, CoInit)] (load_value 0) store_ok None 0 None in
    let l := UnlockWriteLabel (shift_event 1 p) Release 16 8 0 in
    handleMutexUnlock E 0 16 8 init_shim =
      (run_old_val_setter (scalar_of 3735928559) (fst (eng_store E l)) ;;;
       ret (snd (eng_store E l)))
        (add_label (set_globalInstructions init_shim
                      (shift_pos (globalInstructions init_shim) 0 1)) l) /\
    (forall s0, initVals_ s0 !! 16 = None \/ initVals_ s0 !! 16 = Some (scalar_of 3735928559) ->
       exists s0', handleOldVal 16 (scalar_of 3735928559) CoInit s0 = Done tt s0' /\
                   initVals_ s0' !! 16 = Some (scalar_of 3735928559)) /\
    (forall s0, handleOldVal 16 (scalar_of 3735928559) (CoWrite true) s0
                = Done tt (add_fixup s0 (16, 3735928559))).
Proof.
  assert (Hr : registered init_shim 0) by (unfold registered; simpl; lia).
  split; [exact Hr|].
  apply (handleMutexUnlock_old_value_is_deadbeef
           (const_engine [(16, CoInit)] (load_value 0) store_ok None 0 None) 0 16 8 init_shim Hr).
Defined.

(** ** Engine round trips *)

Lemma pos_of_gi s s' t :
  globalInstructions s' = globalInstructions s -> pos_of s' t = pos_of s t.
Proof. unfold pos_of. intros ->. reflexivity. Qed.

Lemma registered_gi s s' t :
  globalInstructions s' = globalInstructions s -> registered s t -> registered s' t.
Proof. unfold registered. intros ->. auto. Qed.

Lemma shift_event_shift_event d1 d2 p :
  shift_event d2 (shift_event d1 p) = shift_event (d1 + d2) p.
Proof. unfold shift_event; simpl. f_equal. lia. Qed.

Lemma step_pos_Done' k t d s e s' :
  step_pos k t d s = Done e s' ->
  exists p, pos_of s t = Some p /\ e = shift_event d p /\
    pos_of s' t = Some (shift_event d p) /\ registered s' t /\
    submitted s' = submitted s /\ initVals_ s' = initVals_ s /\ annotation_id s' = annotation_id s /\
    (forall t', Z.to_nat t' <> Z.to_nat t -> pos_of s' t' = pos_of s t').
Proof.
  intros H. pose proof H as H'. apply step_pos_moves in H' as [[Hpos _] Hr'].
  apply step_pos_Done in H as (Hr & -> & act & Hact & ->).
  exists (event act). unfold pos_of in *. rewrite Hact in *. simpl in *.
  do 4 (split; [first [reflexivity | exact Hpos | exact Hr']|]).
  do 3 (split; [reflexivity|]).
  intros t' Hne. rewrite shift_pos_lookup_ne by exact Hne. reflexivity.
Qed.

Lemma driver_handleLoad_Done E l old s r s' :
  driver_handleLoad E l old s = Done r s' ->
  r = snd (eng_load E l) /\ globalInstructions s' = globalInstructions s /\
  submitted s' = submitted s ++ [l].
Proof.
  unfold driver_handleLoad, submit, bind, get, put, ret.
  destruct (eng_load E l) as [calls res]. simpl. intros H.
  destruct (run_old_val_setter old calls (add_label s l)) as [[] s1|k] eqn:Hrun; [|discriminate].
  inversion H; subst. apply run_old_val_setter_frame in Hrun as (Hg & Hs & _).
  rewrite Hg, Hs. auto.
Qed.

Lemma driver_handleStore_Done E l old s r s' :
  driver_handleStore E l old s = Done r s' ->
  r = snd (eng_store E l) /\ globalInstructions s' = globalInstructions s /\
  submitted s' = submitted s ++ [l].
Proof.
  unfold driver_handleStore, submit, bind, get, put, ret.
  destruct (eng_store E l) as [calls res]. simpl. intros H.
  destruct (run_old_val_setter old calls (add_label s l)) as [[] s1|k] eqn:Hrun; [|discriminate].
  inversion H; subst. apply run_old_val_setter_frame in Hrun as (Hg & Hs & _).
  rewrite Hg, Hs. auto.
Qed.

Lemma submit_Done l s u s' :
  submit l s = Done u s' ->
  globalInstructions s' = globalInstructions s /\ submitted s' = submitted s ++ [l].
Proof. unfold submit, bind, get, put. intros H. inversion H; subst. simpl. auto. Qed.

Lemma handleStore_Done E t a sz v old ord ty s r s' :
  handleStore E t a sz v old ord ty s = Done r s' ->
  exists p, pos_of s t = Some p /\
    let l := store_label ty (shift_event 1 p) ord a sz (toSVal v) in
    r = snd (eng_store E l) /\ submitted s' = submitted s ++ [l] /\
    pos_of s' t = Some (shift_event 1 p) /\ registered s' t /\
    (forall t', Z.to_nat t' <> Z.to_nat t -> pos_of s' t' = pos_of s t').
Proof.
  unfold handleStore, incPos. intros H. inv_bind H.
  apply step_pos_Done' in H0 as (p & Hp & -> & Hp1 & Hr1 & Hs1 & _ & _ & Hoth).
  exists p. split; [exact Hp|].
  replace (match ty with
           | Normal => WriteLabel (shift_event 1 p) ord a sz (toSVal v)
           | ReadModifyWrite => FaiWriteLabel (shift_event 1 p) ord a sz (toSVal v)
           | CompareExchange => CasWriteLabel (shift_event 1 p) ord a sz (toSVal v)
           | MutexUnlockWrite => UnlockWriteLabel (shift_event 1 p) ord a sz (toSVal v)
           end) with (store_label ty (shift_event 1 p) ord a sz (toSVal v)) in H1
    by (destruct ty; reflexivity).
  apply driver_handleStore_Done in H1 as (-> & Hg & Hs).
  simpl. rewrite Hs, Hs1. split; [reflexivity|]. split; [reflexivity|].
  split; [rewrite (pos_of_gi _ _ _ Hg); exact Hp1|].
  split; [exact (registered_gi _ _ _ Hg Hr1)|].
  intros t' Hne. rewrite (pos_of_gi _ _ _ Hg). auto.
Qed.

Tactic Notation "invb" hyp(H) "as" ident(a) ident(s) ident(H1) ident(H2) :=
  apply bind_Done in H; destruct H as (a & s & H1 & H2).

Lemma deref_Done {A} (o : option A) s x s' :
  deref o s = Done x s' -> o = Some x /\ s' = s.
Proof. destruct o; unfold deref, ret, abort; intros H; inversion H; auto. Qed.

Lemma store_is_error_false r : store_is_error r = false -> sr_error r = None.
Proof.
  unfold store_is_error. rewrite bool_decide_eq_false. intros H.
  destruct (sr_error r); [exfalso; apply H; discriminate | reflexivity].
Qed.

(** ** Read-modify-write *)

(** C3: an RMW whose read reports an error returns that error and submits
    only the read; otherwise the store submitted carries
    [(v OP rhs) mod 2^(8*size)] for the observed value [v] (for [Add]:
    [(v + rhs) mod 2^(8*size)]), and a successful result reports [v] and that
    value. *)
Theorem handleReadModifyWrite_wraps E t a sz lo so op rhs old s r s' :
  handleReadModifyWrite E t a sz lo so op rhs old s = Done r s' ->
  exists p, pos_of s t = Some p /\
    let lr := FaiReadLabel (shift_event 1 p) lo a sz op (toSVal rhs) in
    let res := snd (eng_load E lr) in
    match lr_error res with
    | Some e => r = RMWError e /\ submitted s' = submitted s ++ [lr]
    | None =>
        let v := toSVal (scalar res) in
        let nv := executeRMWBinOp v (toSVal rhs) sz op in
        nv = (rmw_math op sz v (toSVal rhs)) mod 2 ^ (8 * sz) /\
        (op = Add -> nv = (v + toSVal rhs) mod 2 ^ (8 * sz)) /\
        submitted s' = submitted s ++ [lr; FaiWriteLabel (shift_event 2 p) so a sz nv] /\
        (forall o n c, r = RMWOk o n c -> o = v /\ n = nv)
    end.
Proof.
  unfold handleReadModifyWrite, incPos. intros H.
  invb H as e s0 Hinc H.
  apply step_pos_Done' in Hinc as (p & Hp & -> & Hp1 & Hr1 & Hs1 & _).
  exists p. split; [exact Hp|]. simpl.
  invb H as res s1 Hld H.
  apply driver_handleLoad_Done in Hld as (-> & Hg1 & Hsub1).
  destruct (lr_error (snd (eng_load E _))) as [msg|] eqn:Herr.
  - unfold ret in H. inversion H; subst. rewrite Hsub1, Hs1. auto.
  - invb H as sr s2 Hst H.
    apply handleStore_Done in Hst as (p' & Hp' & Hsr & Hsub2 & _).
    rewrite (pos_of_gi _ _ _ Hg1), Hp1 in Hp'. inversion Hp'; subst p'.
    rewrite shift_event_shift_event in Hsub2. simpl in Hsub2.
    split; [reflexivity|]. split; [intros ->; reflexivity|].
    destruct (store_is_error sr) eqn:Hse.
    + invb H as m s3 Hd H. apply deref_Done in Hd as [_ ->].
      unfold ret in H. inversion H; subst.
      rewrite Hsub2, Hsub1, Hs1, <- app_assoc. split; [reflexivity|].
      intros o n c Hc. discriminate.
    + unfold ret in H. inversion H; subst.
      rewrite Hsub2, Hsub1, Hs1, <- app_assoc. split; [reflexivity|].
      intros o n c Hc. inversion Hc; subst. auto.
Qed.

Lemma handleReadModifyWrite_wraps_witness :
  handleReadModifyWrite (const_engine [] (load_value 18446744073709551615) store_ok None 0 None)
    0 4096 8 Relaxed Relaxed Add (scalar_of 5) (scalar_of 0) init_shim
  = Done (RMWOk 18446744073709551615 4 true)
         (set_globalInstructions
            (add_label (add_label init_shim
               (FaiReadLabel (mkEvent 0 1) Relaxed 4096 8 Add 5))
               (FaiWriteLabel (mkEvent 0 2) Relaxed 4096 8 4))
            [mkAction (mkEvent 0 2) Load]) /\
  exists p, pos_of init_shim 0 = Some p /\
    let E := const_engine [] (load_value 18446744073709551615) store_ok None 0 None in
    let lr := FaiReadLabel (shift_event 1 p) Relaxed 4096 8 Add (toSVal (scalar_of 5)) in
    let res := snd (eng_load E lr) in
    match lr_error res with
    | Some e => RMWOk 18446744073709551615 4 true = RMWError e /\
                submitted (set_globalInstructions
                   (add_label (add_label init_shim
                      (FaiReadLabel (mkEvent 0 1) Relaxed 4096 8 Add 5))
                      (FaiWriteLabel (mkEvent 0 2) Relaxed 4096 8 4))
                   [mkAction (mkEvent 0 2) Load]) = submitted init_shim ++ [lr]
    | None =>
        let v := toSVal (scalar res) in
        let nv := executeRMWBinOp v (toSVal (scalar_of 5)) 8 Add in
        nv = (rmw_math Add 8 v (toSVal (scalar_of 5))) mod 2 ^ (8 * 8) /\
        (Add = Add -> nv = (v + toSVal (scalar_of 5)) mod 2 ^ (8 * 8)) /\
        submitted (set_globalInstructions
                   (add_label (add_label init_shim
                      (FaiReadLabel (mkEvent 0 1) Relaxed 4096 8 Add 5))
                      (FaiWriteLabel (mkEvent 0 2) Relaxed 4096 8 4))
                   [mkAction (mkEvent 0 2) Load])
          = submitted init_shim ++ [lr; FaiWriteLabel (shift_event 2 p) Relaxed 4096 8 nv] /\
        (forall o n c, RMWOk 18446744073709551615 4 true = RMWOk o n c -> o = v /\ n = nv)
    end.
Proof.
  assert (H : handleReadModifyWrite
                (const_engine [] (load_value 18446744073709551615) store_ok None 0 None)
                0 4096 8 Relaxed Relaxed Add (scalar_of 5) (scalar_of 0) init_shim
              = Done (RMWOk 18446744073709551615 4 true)
                  (set_globalInstructions
                     (add_label (add_label init_shim
                        (FaiReadLabel (mkEvent 0 1) Relaxed 4096 8 Add 5))
                        (FaiWriteLabel (mkEvent 0 2) Relaxed 4096 8 4))
                     [mkAction (mkEvent 0 2) Load])) by (vm_compute; reflexivity).
  split; [exact H|].
  exact (handleReadModifyWrite_wraps _ _ _ _ _ _ _ _ _ _ _ _ H).
Defined.

(** ** Compare-exchange *)

(** C4 (as it fails): the observed value 0 equals the expected 0 and the
    store of the new value is submitted, but the engine reports an error for
    that store: the result is that error, not a success. *)
Lemma handleCompareExchange_store_error_not_success :
  match handleCompareExchange (const_engine [] (load_value 0) (store_error "race"%string) None 0 None)
          0 4096 8 (scalar_of 0) (scalar_of 1) (scalar_of 0) Relaxed Relaxed Relaxed false init_shim with
  | Done r s => r = CASError "race"%string /\ (forall o c, r <> CASSuccess o c) /\
                submitted s = [CasReadLabel (mkEvent 0 1) Relaxed 4096 8 0 1;
                               CasWriteLabel (mkEvent 0 2) Relaxed 4096 8 1]
  | Aborted _ => False
  end.
Proof. vm_compute. split; [reflexivity|]. split; [discriminate | reflexivity]. Qed.

(** C4 (amended): a CAS whose read reports an error returns it and submits
    no store.  Otherwise, for the observed value [o] and the expected value
    [e]: if [o <> e], no store is submitted and the result is a failure
    carrying [o]; if [o = e], a store label with the new value is submitted
    and the result is a success carrying [o], or the store's error when the
    engine reports one for that store. *)
Theorem handleCompareExchange_result E t a sz ev nv old slo sso flo w s r s' :
  handleCompareExchange E t a sz ev nv old slo sso flo w s = Done r s' ->
  exists p, pos_of s t = Some p /\
    let lr := CasReadLabel (shift_event 1 p) slo a sz (toSVal ev) (toSVal nv) in
    let res := snd (eng_load E lr) in
    match lr_error res with
    | Some m => r = CASError m /\ submitted s' = submitted s ++ [lr]
    | None =>
        let o := toSVal (scalar res) in
        (o <> toSVal ev -> r = CASFailure o /\ submitted s' = submitted s ++ [lr]) /\
        (o = toSVal ev ->
           let lw := CasWriteLabel (shift_event 2 p) sso a sz (toSVal nv) in
           submitted s' = submitted s ++ [lr; lw] /\
           r = match sr_error (snd (eng_store E lw)) with
               | Some m => CASError m
               | None => CASSuccess o (isCoMaxWrite (snd (eng_store E lw)))
               end)
    end.
Proof.
  unfold handleCompareExchange, incPos. intros H.
  invb H as e s0 Hinc H.
  apply step_pos_Done' in Hinc as (p & Hp & -> & Hp1 & Hr1 & Hs1 & _).
  exists p. split; [exact Hp|]. simpl.
  invb H as res s1 Hld H.
  apply driver_handleLoad_Done in Hld as (-> & Hg1 & Hsub1).
  destruct (lr_error (snd (eng_load E _))) as [msg|] eqn:Herr.
  - unfold ret in H. inversion H; subst. rewrite Hsub1, Hs1. auto.
  - destruct (Z.eqb_spec (toSVal (scalar (snd (eng_load E
        (CasReadLabel (shift_event 1 p) slo a sz (toSVal ev) (toSVal nv)))))) (toSVal ev))
      as [Heq|Hne]; simpl in H.
    + split; [intros Hc; contradiction|]. intros _.
      invb H as sr s2 Hst H.
      apply handleStore_Done in Hst as (p' & Hp' & Hsr & Hsub2 & _).
      rewrite (pos_of_gi _ _ _ Hg1), Hp1 in Hp'. inversion Hp'; subst p'.
      rewrite shift_event_shift_event in Hsub2, Hsr. change (1 + 1) with 2 in Hsub2, Hsr.
      cbn [store_label toSVal GenmcScalar_of_SVal value] in Hsub2, Hsr.
      unfold store_is_error in H. subst sr.
      destruct (sr_error (snd (eng_store E _))) as [m|] eqn:Hse; simpl in H.
      * invb H as m' s3 Hd H. unfold ret in Hd, H. inversion Hd; subst.
        inversion H; subst.
        rewrite Hsub2, Hsub1, Hs1, <- app_assoc. split; reflexivity.
      * unfold ret in H. inversion H; subst.
        rewrite Hsub2, Hsub1, Hs1, <- app_assoc. split; reflexivity.
    + unfold ret in H. inversion H; subst. split; [|intros Hc; contradiction].
      intros _. rewrite Hsub1, Hs1. auto.
Qed.

Lemma handleCompareExchange_result_witness :
  let E := const_engine [] (load_value 0) store_ok None 0 None in
  match handleCompareExchange E 0 4096 8 (scalar_of 0) (scalar_of 1) (scalar_of 0)
          Relaxed Relaxed Relaxed false init_shim with
  | Done r s' =>
    exists p, pos_of init_shim 0 = Some p /\
    let lr := CasReadLabel (shift_event 1 p) Relaxed 4096 8 (toSVal (scalar_of 0)) (toSVal (scalar_of 1)) in
    let res := snd (eng_load E lr) in
    match lr_error res with
    | Some m => r = CASError m /\ submitted s' = submitted init_shim ++ [lr]
    | None =>
        let o := toSVal (scalar res) in
        (o <> toSVal (scalar_of 0) -> r = CASFailure o /\ submitted s' = submitted init_shim ++ [lr]) /\
        (o = toSVal (scalar_of 0) ->
           let lw := CasWriteLabel (shift_event 2 p) Relaxed 4096 8 (toSVal (scalar_of 1)) in
           submitted s' = submitted init_shim ++ [lr; lw] /\
           r = match sr_error (snd (eng_store E lw)) with
               | Some m => CASError m
               | None => CASSuccess o (isCoMaxWrite (snd (eng_store E lw)))
               end)
    end
  | Aborted _ => False
  end.
Proof.
  intros E.
  destruct (handleCompareExchange E 0 4096 8 (scalar_of 0) (scalar_of 1) (scalar_of 0)
              Relaxed Relaxed Relaxed false init_shim) as [r s'|k] eqn:H.
  - exact (handleCompareExchange_result _ _ _ _ _ _ _ _ _ _ _ _ _ _ H).
  - vm_compute in H. discriminate.
Defined.

(** ** Mutex protocol *)

Lemma get_annot_id_Done a s id s' :
  get_annot_id a s = Done id s' ->
  globalInstructions s' = globalInstructions s /\ submitted s' = submitted s.
Proof.
  unfold get_annot_id, bind, get, put, ret. intros H.
  destruct (annotation_id s !! a); inversion H; subst; simpl; auto.
Qed.

(** C5: once the annotated lock read resolves a value (no error, not
    "no value"), an observed 0 leads to the lock-write label and
    [acquired = true] unless the engine reports an error for that write,
    which is then returned; a nonzero value leads to a block label and
    [acquired = false]. *)
Theorem handleMutexLock_resolved E t a sz s r s' :
  handleMutexLock E t a sz s = Done r s' ->
  exists p annot, pos_of s t = Some p /\
    let lr := LockCasReadLabel (shift_event 1 p) a sz annot in
    let res := snd (eng_load E lr) in
    (is_error res = false -> is_read_opt res = false ->
      (getValue res = 0 ->
         let lw := LockCasWriteLabel (shift_event 2 p) a sz in
         submitted s' = submitted s ++ [lr; lw] /\
         r = match sr_error (snd (eng_store E lw)) with
             | Some m => MutexLockResult_fromError m
             | None => MutexLockResult_of true
             end) /\
      (getValue res <> 0 ->
         submitted s' = submitted s ++ [lr; LockNotAcqBlockLabel (shift_event 2 p)] /\
         r = MutexLockResult_of false)).
Proof.
  unfold handleMutexLock. intros H.
  invb H as annot s0 Hann H.
  apply get_annot_id_Done in Hann as [Hg0 Hs0].
  invb H as e s1 Hinc H.
  apply step_pos_Done' in Hinc as (p & Hp & -> & Hp1 & Hr1 & Hs1 & _).
  rewrite (pos_of_gi _ _ _ Hg0) in Hp.
  exists p, annot. split; [exact Hp|]. simpl.
  invb H as res s2 Hld H.
  apply driver_handleLoad_Done in Hld as (-> & Hg2 & Hsub2).
  intros Herr Hopt. rewrite Herr, Hopt in H.
  destruct (Z.eqb_spec (getValue (snd (eng_load E (LockCasReadLabel (shift_event 1 p) a sz annot)))) 0)
    as [Hz|Hnz].
  - split; [|intros Hc; contradiction]. intros _.
    invb H as e s3 Hinc H.
    apply step_pos_Done' in Hinc as (p' & Hp' & -> & _ & _ & Hs3 & _).
    rewrite (pos_of_gi _ _ _ Hg2), Hp1 in Hp'. inversion Hp'; subst p'.
    rewrite shift_event_shift_event in H. change (1 + 1) with 2 in H.
    invb H as sr s4 Hst H.
    apply driver_handleStore_Done in Hst as (-> & _ & Hsub4).
    unfold store_is_error in H.
    destruct (sr_error (snd (eng_store E (LockCasWriteLabel (shift_event 2 p) a sz)))) as [m|];
      simpl in H.
    + invb H as m' s5 Hd H. unfold ret in Hd, H. inversion Hd; subst. inversion H; subst.
      rewrite Hsub4, Hs3, Hsub2, Hs1, Hs0, <- app_assoc. split; reflexivity.
    + unfold ret in H. inversion H; subst.
      rewrite Hsub4, Hs3, Hsub2, Hs1, Hs0, <- app_assoc. split; reflexivity.
  - split; [intros Hc; contradiction|]. intros _.
    invb H as e s3 Hinc H.
    apply step_pos_Done' in Hinc as (p' & Hp' & -> & _ & _ & Hs3 & _).
    rewrite (pos_of_gi _ _ _ Hg2), Hp1 in Hp'. inversion Hp'; subst p'.
    rewrite shift_event_shift_event in H. change (1 + 1) with 2 in H.
    invb H as u s4 Hsb H. apply submit_Done in Hsb as [_ Hsub4].
    unfold ret in H. inversion H; subst.
    rewrite Hsub4, Hs3, Hsub2, Hs1, Hs0, <- app_assoc. split; reflexivity.
Qed.

Lemma handleMutexLock_resolved_witness :
  let E := const_engine [] (load_value 0) store_ok None 0 None in
  match handleMutexLock E 0 16 8 init_shim with
  | Done r s' =>
    exists p annot, pos_of init_shim 0 = Some p /\
    let lr := LockCasReadLabel (shift_event 1 p) 16 8 annot in
    let res := snd (eng_load E lr) in
    (is_error res = false -> is_read_opt res = false ->
      (getValue res = 0 ->
         let lw := LockCasWriteLabel (shift_event 2 p) 16 8 in
         submitted s' = submitted init_shim ++ [lr; lw] /\
         r = match sr_error (snd (eng_store E lw)) with
             | Some m => MutexLockResult_fromError m
             | None => MutexLockResult_of true
             end) /\
      (getValue res <> 0 ->
         submitted s' = submitted init_shim ++ [lr; LockNotAcqBlockLabel (shift_event 2 p)] /\
         r = MutexLockResult_of false))
  | Aborted _ => False
  end.
Proof.
  intros E. destruct (handleMutexLock E 0 16 8 init_shim) as [r s'|k] eqn:H.
  - exact (handleMutexLock_resolved _ _ _ _ _ _ _ H).
  - vm_compute in H. discriminate.
Defined.

(** C6 (the unresolved-read path): when the engine answers the try-lock
    read with "no value" and no error, [handleMutexTryLock] dereferences the
    null error pointer instead of reporting [acquired = false]. *)
Lemma handleMutexTryLock_no_value_dereferences_null :
  handleMutexTryLock (const_engine [] load_no_value store_ok None 0 None) 0 16 8 init_shim
  = Aborted Undefined.
Proof. vm_compute. reflexivity. Qed.

(** ** Allocation *)

(** C8 (as it fails): on an unregistered thread (id 1, only the main thread
    exists), [handleMalloc] with size 8 and an engine returning a non-null
    address, and [handleFree] of a non-null address with size 8, both fail
    fatally, through the bounds check of [incPos]. *)
Lemma handleMalloc_unregistered_thread_fatal :
  handleMalloc (const_engine [] (load_value 0) store_ok None 4096 None) 1 8 8 init_shim
    = Aborted Error /\
  handleFree 1 4096 8 init_shim = Aborted Error.
Proof. split; vm_compute; reflexivity. Qed.

(** C8 (amended): [handleMalloc] fails with an assertion exactly when the
    size is zero or the engine returns a null address, and [handleFree]
    exactly when the size is zero or the address is null; both also fail
    fatally, with the bounds error of [incPos], on an unregistered thread.
    Otherwise they complete. *)
Theorem handleMalloc_handleFree_fatal E t sz al addr s :
  (sz = 0 -> handleMalloc E t sz al s = Aborted Bug) /\
  (sz <> 0 -> ~ registered s t -> handleMalloc E t sz al s = Aborted Error) /\
  (sz <> 0 -> registered s t ->
     exists p, pos_of s t = Some p /\
       let l := MallocLabel (shift_event 1 p) sz al in
       (eng_malloc E l = 0 -> handleMalloc E t sz al s = Aborted Bug) /\
       (eng_malloc E l <> 0 -> exists s', handleMalloc E t sz al s = Done (eng_malloc E l) s')) /\
  (sz = 0 \/ addr = 0 -> handleFree t addr sz s = Aborted Bug) /\
  (sz <> 0 -> addr <> 0 -> ~ registered s t -> handleFree t addr sz s = Aborted Error) /\
  (sz <> 0 -> addr <> 0 -> registered s t -> exists s', handleFree t addr sz s = Done tt s').
Proof.
  unfold handleMalloc, handleFree, BUG_ON, incPos, driver_handleMalloc, submit,
    bind, get, put, ret, abort.
  repeat split.
  - intros ->. reflexivity.
  - intros Hsz Hr. apply Z.eqb_neq in Hsz. rewrite Hsz. cbv beta iota.
    rewrite step_pos_not_registered by exact Hr. reflexivity.
  - intros Hsz Hr. apply Z.eqb_neq in Hsz.
    destruct (step_pos_ok Error t 1 s Hr) as (act & Hact & Hs).
    exists (event act). split; [unfold pos_of; rewrite Hact; reflexivity|].
    rewrite Hsz. cbv beta iota. rewrite Hs. split.
    + intros Hz. rewrite Hz. reflexivity.
    + intros Hnz. apply Z.eqb_neq in Hnz. rewrite Hnz. eexists. reflexivity.
  - intros [->| ->]; [reflexivity|]. destruct (sz =? 0); reflexivity.
  - intros Hsz Ha Hr. apply Z.eqb_neq in Hsz, Ha. rewrite Hsz, Ha. cbv beta iota.
    rewrite step_pos_not_registered by exact Hr. reflexivity.
  - intros Hsz Ha Hr. apply Z.eqb_neq in Hsz, Ha.
    destruct (step_pos_ok Error t 1 s Hr) as (act & Hact & Hs).
    rewrite Hsz, Ha. cbv beta iota. rewrite Hs. eexists. reflexivity.
Qed.

(** ** Scheduling *)

(** C9: on a registered current thread, [scheduleNext] only replaces that
    thread's instruction-kind hint: every other field of the adapter state is
    unchanged, every entry keeps its event, every other thread's [Action] is
    unchanged, and the result is the engine's choice or -1. *)
Theorem scheduleNext_only_sets_kind E t k s :
  registered s t ->
  let gi' := set_kind (globalInstructions s) t k in
  scheduleNext E t k s =
    Done (match eng_schedule E gi' with Some x => x | None => -1 end)
         (set_globalInstructions s gi') /\
  length gi' = length (globalInstructions s) /\
  (forall i act, globalInstructions s !! i = Some act ->
     gi' !! i = Some (if decide (i = Z.to_nat t) then mkAction (event act) k else act)) /\
  (forall t', pos_of (set_globalInstructions s gi') t' = pos_of s t').
Proof.
  intros Hr gi'.
  assert (Hsk : forall i act, globalInstructions s !! i = Some act ->
     gi' !! i = Some (if decide (i = Z.to_nat t) then mkAction (event act) k else act)).
  { intros i act Hi. subst gi'. unfold set_kind.
    destruct (registered_lookup s t Hr) as [a0 Ha0]. rewrite Ha0.
    destruct (decide (i = Z.to_nat t)) as [->|Hne].
    - rewrite Ha0 in Hi. inversion Hi; subst.
      apply list_lookup_insert_eq. eapply lookup_lt_Some. exact Ha0.
    - rewrite list_lookup_insert_ne by congruence. exact Hi. }
  split; [|split; [|split; [exact Hsk|]]].
  - unfold scheduleNext, bind, get, put, abort.
    assert (uge t (length (globalInstructions s)) = false) as -> by (apply uge_false_iff; exact Hr).
    subst gi'. destruct (eng_schedule E _); reflexivity.
  - subst gi'. unfold set_kind. destruct (_ !! _); [apply length_insert|reflexivity].
  - intros t'. unfold pos_of. simpl.
    destruct (globalInstructions s !! Z.to_nat t') as [act|] eqn:Ha.
    + rewrite (Hsk _ _ Ha). destruct (decide _); reflexivity.
    + assert (gi' !! Z.to_nat t' = None) as ->; [|reflexivity].
      apply lookup_ge_None. apply lookup_ge_None in Ha.
      subst gi'. unfold set_kind. destruct (_ !! Z.to_nat t); [rewrite length_insert|]; lia.
Qed.

Lemma scheduleNext_only_sets_kind_witness :
  registered init_shim 0 /\
  let E := const_engine [] (load_value 0) store_ok None 0 (Some 0) in
  let gi' := set_kind (globalInstructions init_shim) 0 NonLoad in
  scheduleNext E 0 NonLoad init_shim =
    Done (match eng_schedule E gi' with Some x => x | None => -1 end)
         (set_globalInstructions init_shim gi') /\
  length gi' = length (globalInstructions init_shim) /\
  (forall i act, globalInstructions init_shim !! i = Some act ->
     gi' !! i = Some (if decide (i = Z.to_nat 0) then mkAction (event act) NonLoad else act)) /\
  (forall t', pos_of (set_globalInstructions init_shim gi') t' = pos_of init_shim t').
Proof.
  assert (Hr : registered init_shim 0) by (unfold registered; simpl; lia).
  split; [exact Hr|].
  exact (scheduleNext_only_sets_kind (const_engine [] (load_value 0) store_ok None 0 (Some 0))
           0 NonLoad init_shim Hr).
Defined.

(** ** Position bookkeeping *)

Lemma shift_event_0 p : shift_event 0 p = p.
Proof. destruct p; unfold shift_event; simpl. f_equal. lia. Qed.

Lemma moves_trans t d1 d2 n1 n2 s1 s2 s3 :
  moves t d1 n1 s1 s2 -> moves t d2 n2 s2 s3 -> moves t (d1 + d2) (n1 ++ n2) s1 s3.
Proof.
  intros [P1 S1] [P2 S2]. split.
  - rewrite P2, P1. destruct (pos_of s1 t) as [p|]; simpl; [|reflexivity].
    rewrite shift_event_shift_event. reflexivity.
  - rewrite S2, S1, app_assoc. reflexivity.
Qed.

Lemma moves_frame t new s s' :
  globalInstructions s' = globalInstructions s -> submitted s' = submitted s ++ new ->
  moves t 0 new s s'.
Proof.
  intros Hg Hs. split; [|exact Hs].
  rewrite (pos_of_gi _ _ _ Hg). destruct (pos_of s t); simpl; [rewrite shift_event_0|]; reflexivity.
Qed.

Lemma moves_same t s : moves t 0 [] s s.
Proof. apply moves_frame; [reflexivity | rewrite app_nil_r; reflexivity]. Qed.

Lemma ret_moves {A} t (x y : A) s s' : ret x s = Done y s' -> x = y /\ moves t 0 [] s s'.
Proof. unfold ret. intros H. inversion H; subst. split; [reflexivity | apply moves_same]. Qed.

Lemma deref_moves {A} t (o : option A) s x s' : deref o s = Done x s' -> o = Some x /\ moves t 0 [] s s'.
Proof. intros H. apply deref_Done in H as [-> ->]. split; [reflexivity | apply moves_same]. Qed.

Lemma BUG_ON_moves t b s u s' : BUG_ON b s = Done u s' -> b = false /\ moves t 0 [] s s'.
Proof.
  unfold BUG_ON, abort, ret. destruct b; intros H; inversion H; subst.
  split; [reflexivity | apply moves_same].
Qed.

Lemma get_annot_id_moves t a s id s' : get_annot_id a s = Done id s' -> moves t 0 [] s s'.
Proof.
  intros H. apply get_annot_id_Done in H as [Hg Hs].
  apply moves_frame; [exact Hg | rewrite Hs, app_nil_r; reflexivity].
Qed.

Lemma driver_handleLoad_moves t E l old s r s' :
  driver_handleLoad E l old s = Done r s' -> r = snd (eng_load E l) /\ moves t 0 [l] s s'.
Proof.
  intros H. apply driver_handleLoad_Done in H as (-> & Hg & Hs).
  split; [reflexivity | apply moves_frame; assumption].
Qed.

Lemma driver_handleStore_moves t E l old s r s' :
  driver_handleStore E l old s = Done r s' -> r = snd (eng_store E l) /\ moves t 0 [l] s s'.
Proof.
  intros H. apply driver_handleStore_Done in H as (-> & Hg & Hs).
  split; [reflexivity | apply moves_frame; assumption].
Qed.

Lemma submit_moves t l s u s' : submit l s = Done u s' -> moves t 0 [l] s s'.
Proof. intros H. apply submit_Done in H as [Hg Hs]. apply moves_frame; assumption. Qed.

Lemma driver_handleJoin_moves t E l s r s' :
  driver_handleJoin E l s = Done r s' -> r = eng_join E l /\ moves t 0 [l] s s'.
Proof.
  unfold driver_handleJoin, bind, ret. destruct (submit l s) as [u s1|k] eqn:Hs; [|discriminate].
  intros H. inversion H; subst. split; [reflexivity|]. eapply submit_moves. exact Hs.
Qed.

Lemma driver_handleCreate_moves t E l s r s' :
  driver_handleCreate E l s = Done r s' -> r = eng_create E l /\ moves t 0 [l] s s'.
Proof.
  unfold driver_handleCreate, bind, ret. destruct (submit l s) as [u s1|k] eqn:Hs; [|discriminate].
  intros H. inversion H; subst. split; [reflexivity|]. eapply submit_moves. exact Hs.
Qed.

Lemma driver_handleMalloc_moves t E l s r s' :
  driver_handleMalloc E l s = Done r s' -> r = eng_malloc E l /\ moves t 0 [l] s s'.
Proof.
  unfold driver_handleMalloc, bind, ret. destruct (submit l s) as [u s1|k] eqn:Hs; [|discriminate].
  intros H. inversion H; subst. split; [reflexivity|]. eapply submit_moves. exact Hs.
Qed.

Lemma step_pos_moves_at k t d s e s' :
  step_pos k t d s = Done e s' ->
  exists p, pos_of s t = Some p /\ e = shift_event d p /\ moves t d [] s s'.
Proof.
  intros H. pose proof H as H'. apply step_pos_moves in H' as [Hm _].
  apply step_pos_Done' in H as (p & Hp & -> & _). eauto.
Qed.

Lemma accounted_intro E t op s s' d new p :
  pos_of s t = Some p -> moves t d new s s' ->
  d = Z.of_nat (length new) - match new with
                              | l :: _ => if retracts E op l then 1 else 0
                              | [] => 0
                              end ->
  accounted E t op s s'.
Proof.
  intros Hp [Hpos Hsub] Hd. exists p, new. split; [exact Hp|]. split; [exact Hsub|].
  rewrite Hpos, Hp. simpl. rewrite <- Hd. reflexivity.
Qed.

Lemma moves_pos_back t d new s s' p :
  moves t d new s s' -> pos_of s' t = Some p ->
  exists p0, pos_of s t = Some p0 /\ p = shift_event d p0.
Proof.
  intros [Hm _] Hp. rewrite Hm in Hp. destruct (pos_of s t); simpl in Hp; [|discriminate].
  inversion Hp. eauto.
Qed.

Lemma moves_Some t d new s s' p :
  moves t d new s s' -> pos_of s t = Some p -> pos_of s' t = Some (shift_event d p).
Proof. intros [Hm _] Hp. rewrite Hm, Hp. reflexivity. Qed.

Lemma bind_step_pos_registered {B} k t d (f : Event -> M B) s x s' :
  bind (step_pos k t d) f s = Done x s' -> registered s t.
Proof. intros H. apply bind_Done in H as (? & ? & H & _). apply step_pos_Done in H. tauto. Qed.

(** Replacing the instruction table by one that agrees at [t]. *)
Lemma put_gi_moves t x y gi' :
  moves t 0 [] x y -> gi' !! Z.to_nat t = globalInstructions x !! Z.to_nat t ->
  moves t 0 [] y (set_globalInstructions x gi').
Proof.
  intros [Hp Hs] Hl. split.
  - unfold pos_of at 1. simpl. rewrite Hl. change (pos_of x t = option_map (shift_event 0) (pos_of y t)).
    rewrite Hp. destruct (pos_of x t); simpl; rewrite ?shift_event_0; reflexivity.
  - simpl. rewrite Hs, !app_nil_r. reflexivity.
Qed.

Lemma pos_of_is_Some s t p : pos_of s t = Some p -> is_Some (globalInstructions s !! Z.to_nat t).
Proof. unfold pos_of. destruct (globalInstructions s !! Z.to_nat t); simpl; [eauto | discriminate]. Qed.

Ltac push_pos :=
  repeat match goal with
  | Hp : pos_of ?s0 ?t = Some _, Hm : moves ?t _ _ ?s0 ?s1 |- _ =>
      lazymatch goal with
      | _ : pos_of s1 t = Some _ |- _ => fail
      | _ => pose proof (moves_Some _ _ _ _ _ _ Hm Hp)
      end
  end.

(** Carry every known position back to the earliest state it is reachable from. *)
Ltac pull_pos :=
  repeat match goal with
  | Hp : pos_of ?s1 ?t = Some _, Hm : moves ?t _ _ ?s0 ?s1 |- _ =>
      let p := fresh "p" in let Hq := fresh "Hp" in
      destruct (moves_pos_back _ _ _ _ _ _ Hm Hp) as (p & Hq & ?); clear Hp
  end.

Ltac merge_moves :=
  repeat match goal with
  | H1 : moves ?t ?d1 ?n1 ?a ?b, H2 : moves ?t ?d2 ?n2 ?b ?c |- _ =>
      pose proof (moves_trans _ _ _ _ _ _ _ _ H1 H2); clear H1 H2
  end.

(** Turn each [c s = Done x s'] of a primitive into a [moves] fact. *)
Ltac to_moves t :=
  repeat match goal with
  | H : bind _ _ _ = Done _ _ |- _ =>
      let a := fresh "x" in let s := fresh "st" in let H1 := fresh "Hc" in
      apply bind_Done in H; destruct H as (a & s & H1 & H); cbv beta in H
  | H : step_pos _ _ _ _ = Done _ _ |- _ =>
      let p := fresh "p" in let Hp := fresh "Hp" in
      apply step_pos_moves_at in H; destruct H as (p & Hp & ? & H); subst
  | H : incPos _ _ = Done _ _ |- _ => unfold incPos in H
  | H : decPos _ _ = Done _ _ |- _ => unfold decPos in H
  | H : incRef _ _ = Done _ _ |- _ => unfold incRef in H
  | H : decRef _ _ = Done _ _ |- _ => unfold decRef in H
  | H : ret _ _ = Done _ _ |- _ => apply (ret_moves t) in H; destruct H as [? H]; subst
  | H : deref _ _ = Done _ _ |- _ => apply (deref_moves t) in H; destruct H as [? H]
  | H : BUG_ON _ _ = Done _ _ |- _ => apply (BUG_ON_moves t) in H; destruct H as [? H]
  | H : get_annot_id _ _ = Done _ _ |- _ => apply (get_annot_id_moves t) in H
  | H : submit _ _ = Done _ _ |- _ => apply (submit_moves t) in H
  | H : driver_handleLoad _ _ _ _ = Done _ _ |- _ =>
      apply (driver_handleLoad_moves t) in H; destruct H as [? H]; subst
  | H : driver_handleStore _ _ _ _ = Done _ _ |- _ =>
      apply (driver_handleStore_moves t) in H; destruct H as [? H]; subst
  | H : driver_handleJoin _ _ _ = Done _ _ |- _ =>
      apply (driver_handleJoin_moves t) in H; destruct H as [? H]; subst
  | H : driver_handleCreate _ _ _ = Done _ _ |- _ =>
      apply (driver_handleCreate_moves t) in H; destruct H as [? H]; subst
  | H : driver_handleMalloc _ _ _ = Done _ _ |- _ =>
      apply (driver_handleMalloc_moves t) in H; destruct H as [? H]; subst
  | H : handleStore _ _ _ _ _ _ _ _ _ = Done _ _ |- _ =>
      unfold handleStore in H; cbv beta iota zeta in H
  | H : abort _ _ = Done _ _ |- _ => discriminate H
  | H : (match ?x with _ => _ end) _ = Done _ _ |- _ => destruct x eqn:?
  end.

Ltac use_eqns :=
  repeat match goal with
  | H : ?x = true |- context[?x] => rewrite H
  | H : ?x = false |- context[?x] => rewrite H
  | H : ?x = None |- context[?x] => rewrite H
  | H : ?x = Some _ |- context[?x] => rewrite H
  end.

(** C2 (counterexample): with one engine whose reads all report an error
    and whose stores all succeed, an RMW on the registered thread 0 ends in
    an error but keeps its advance (index 0 to 1), while a mutex Lock ends
    in the same error and takes it back (index stays 0).  With reads of 0
    and failing stores, a Lock also ends in an error and keeps both
    advances (index 0 to 2).  Operations that end in an engine error are
    not all restored. *)
Lemma rmw_read_error_keeps_advance :
  let E := const_engine [] (load_error "race"%string) store_ok None 0 None in
  let E' := const_engine [] (load_value 0) (store_error "race"%string) None 0 None in
  match handleReadModifyWrite E 0 4096 8 Relaxed Relaxed Add (scalar_of 1) (scalar_of 0) init_shim with
  | Done r s => r = RMWError "race"%string /\ pos_of s 0 = Some (mkEvent 0 1)
  | Aborted _ => False
  end /\
  match handleMutexLock E 0 4096 8 init_shim with
  | Done r s => mutex_error r = Some "race"%string /\ pos_of s 0 = Some (mkEvent 0 0)
  | Aborted _ => False
  end /\
  match handleMutexLock E' 0 4096 8 init_shim with
  | Done r s => mutex_error r = Some "race"%string /\ pos_of s 0 = Some (mkEvent 0 2)
  | Aborted _ => False
  end.
Proof. vm_compute. repeat split. Qed.

(** C2 (amended): for an operation issued on thread [t] that completes
    (and that does not create [t] itself), [t] has a position before, and
    its index afterwards has moved by the number of labels the operation
    submitted to the engine, minus one exactly when the engine's answer to
    the first one makes the operation take its advance back: a Lock read
    that errs or resolves no value, a TryLock read without a value, a Join
    whose child has no value yet.  Every other operation keeps its advance,
    also when it ends in an engine error (Load, Store, RMW, CAS, the
    Lock/TryLock store). *)
Theorem run_op_position_accounted E t op s s' :
  run_op E t op s = Done tt s' -> (forall c, op = OpCreate c -> c <> t) ->
  accounted E t op s s'.
Proof.
  intros H Hc. destruct op; simpl in H;
  unfold handleLoad, handleStore, handleReadModifyWrite, handleCompareExchange, handleFence,
    handleMalloc, handleFree, handleThreadCreate, handleThreadJoin, handleThreadFinish,
    handleUserBlock, handleMutexLock, handleMutexTryLock, handleMutexUnlock in H.
  8: unfold incPos in H; pose proof (bind_step_pos_registered _ _ _ _ _ _ _ H) as [Ht _];
     specialize (Hc child eq_refl).
  all: to_moves t.
  all: try (pull_pos; merge_moves; eapply accounted_intro; [eassumption|eassumption|];
            simpl; use_eqns; simpl; lia).
  (* [handleThreadCreate]: the child's slot is written, not [t]'s. *)
  all: push_pos;
  match goal with Hg : get _ = Done _ _ |- _ => inversion Hg; subst end;
  match goal with Hg : put _ _ = Done _ _ |- _ => inversion Hg; subst; clear Hg end;
  match goal with
  | Hm : moves ?t 0 [] ?x ?y, Hq : pos_of ?x ?t = Some _
    |- accounted _ _ _ _ (set_globalInstructions ?x ?g) =>
      assert (moves t 0 [] y (set_globalInstructions x g));
      [apply put_gi_moves; [exact Hm|] | ]
  end.
  - rewrite lookup_app_l; [reflexivity|]. apply lookup_lt_is_Some_1. eapply pos_of_is_Some. eassumption.
  - pull_pos; merge_moves; eapply accounted_intro; [eassumption|eassumption|]; simpl; lia.
  - rewrite list_lookup_insert_ne; [reflexivity|].
    match goal with
    | Hb : uge _ _ = false, He : negb (_ =? child) = false |- _ =>
        apply uge_false_iff in Hb; apply negb_false_iff, Z.eqb_eq in He
    end. lia.
  - pull_pos; merge_moves; eapply accounted_intro; [eassumption|eassumption|]; simpl; lia.
Qed.

Lemma run_op_position_accounted_witness :
  let E := const_engine [] (load_error "race"%string) store_ok None 0 None in
  match run_op E 0 (OpLock 4096 8) init_shim with
  | Done u s' => accounted E 0 (OpLock 4096 8) init_shim s'
  | Aborted _ => False
  end.
Proof.
  intros E. destruct (run_op E 0 (OpLock 4096 8) init_shim) as [[] s'|k] eqn:H.
  - exact (run_op_position_accounted E 0 (OpLock 4096 8) init_shim s' H
             (fun c Hc => ltac:(discriminate Hc))).
  - vm_compute in H. discriminate H.
Defined.

(** ** Evolution of the initial-value and annotation tables *)

Lemma evolves_refl s : evolves s s.
Proof. split; [intros Hw; split; auto|]. split; auto. Qed.

Lemma evolves_trans s1 s2 s3 : evolves s1 s2 -> evolves s2 s3 -> evolves s1 s3.
Proof.
  intros (H1 & A1 & K1) (H2 & A2 & K2). split; [|split; auto].
  intros Hw. destruct (H1 Hw) as [Hw1 Hk1]. destruct (H2 Hw1) as [Hw2 Hk2]. auto.
Qed.

Lemma evolves_frame s s' :
  initVals_ s' = initVals_ s -> annotation_id s' = annotation_id s ->
  annotation_id_counter s' = annotation_id_counter s -> evolves s s'.
Proof.
  intros Hi Ha Hc. unfold evolves, annot_wf. rewrite Hi, Ha, Hc. repeat split; auto; tauto.
Qed.

Lemma handleOldVal_annotations addr v co s s' :
  handleOldVal addr v co s = Done tt s' ->
  annotation_id s' = annotation_id s /\ annotation_id_counter s' = annotation_id_counter s.
Proof.
  unfold handleOldVal, bind, get, put, ret, abort, BUG_ON, map_insert_pair.
  intros H. repeat case_match; unfold ret in *; simplify_eq/=; auto.
Qed.

Lemma handleOldVal_evolves addr v co s s' :
  handleOldVal addr v co s = Done tt s' -> evolves s s'.
Proof.
  intros H. pose proof (handleOldVal_annotations _ _ _ _ _ H) as [Ha Hc].
  split; [intros Hw; exact (handleOldVal_initVals _ _ _ _ _ H Hw)|].
  unfold annot_wf. rewrite Ha, Hc. split; auto.
Qed.

Lemma run_old_val_setter_evolves v calls s s' :
  run_old_val_setter v calls s = Done tt s' -> evolves s s'.
Proof.
  revert s. induction calls as [|[addr co] rest IH]; intros s H.
  - simpl in H. inversion H; subst. apply evolves_refl.
  - simpl in H. invb H as u s1 H1 H. destruct u.
    exact (evolves_trans _ _ _ (handleOldVal_evolves _ _ _ _ _ H1) (IH _ H)).
Qed.

Lemma step_pos_evolves k t d s e s' : step_pos k t d s = Done e s' -> evolves s s'.
Proof. intros H. apply step_pos_Done in H as (_ & -> & _). apply evolves_frame; reflexivity. Qed.

Lemma submit_evolves l s u s' : submit l s = Done u s' -> evolves s s'.
Proof. unfold submit, bind, get, put. intros H. inversion H; subst. apply evolves_frame; reflexivity. Qed.

Lemma driver_handleLoad_evolves E l old s r s' :
  driver_handleLoad E l old s = Done r s' -> evolves s s'.
Proof.
  unfold driver_handleLoad. intros H. invb H as u s1 H1 H.
  destruct (eng_load E l) as [calls res]. invb H as u' s2 H2 H.
  unfold ret in H. inversion H; subst. destruct u'.
  exact (evolves_trans _ _ _ (submit_evolves _ _ _ _ H1) (run_old_val_setter_evolves _ _ _ _ H2)).
Qed.

Lemma driver_handleStore_evolves E l old s r s' :
  driver_handleStore E l old s = Done r s' -> evolves s s'.
Proof.
  unfold driver_handleStore. intros H. invb H as u s1 H1 H.
  destruct (eng_store E l) as [calls res]. invb H as u' s2 H2 H.
  unfold ret in H. inversion H; subst. destruct u'.
  exact (evolves_trans _ _ _ (submit_evolves _ _ _ _ H1) (run_old_val_setter_evolves _ _ _ _ H2)).
Qed.

Lemma driver_handleJoin_evolves E l s r s' : driver_handleJoin E l s = Done r s' -> evolves s s'.
Proof.
  unfold driver_handleJoin. intros H. invb H as u s1 H1 H. unfold ret in H. inversion H; subst.
  exact (submit_evolves _ _ _ _ H1).
Qed.

Lemma driver_handleCreate_evolves E l s r s' : driver_handleCreate E l s = Done r s' -> evolves s s'.
Proof.
  unfold driver_handleCreate. intros H. invb H as u s1 H1 H. unfold ret in H. inversion H; subst.
  exact (submit_evolves _ _ _ _ H1).
Qed.

Lemma driver_handleMalloc_evolves E l s r s' : driver_handleMalloc E l s = Done r s' -> evolves s s'.
Proof.
  unfold driver_handleMalloc. intros H. invb H as u s1 H1 H. unfold ret in H. inversion H; subst.
  exact (submit_evolves _ _ _ _ H1).
Qed.

(** A fresh annotation id is the counter, which no recorded id reaches. *)
Lemma get_annot_id_evolves a s i s' :
  get_annot_id a s = Done i s' ->
  evolves s s' /\ annotation_id s' !! a = Some i.
Proof.
  unfold get_annot_id, bind, get, put, ret. intros H.
  destruct (annotation_id s !! a) as [j|] eqn:Ha.
  - inversion H; subst. split; [apply evolves_refl | exact Ha].
  - inversion H; subst. simpl.
    assert (Hkeep : forall b k, annotation_id s !! b = Some k ->
                      (<[a := annotation_id_counter s]> (annotation_id s)) !! b = Some k).
    { intros b k Hb. rewrite lookup_insert_ne by congruence. exact Hb. }
    split; [|apply lookup_insert_eq].
    + split; [intros Hw; split; [exact Hw | auto]|]. split; [|exact Hkeep].
      intros [Hlt Hinj]. split; simpl.
      * intros b k Hb. destruct (decide (b = a)) as [->|Hne].
        -- rewrite lookup_insert_eq in Hb. inversion Hb. lia.
        -- rewrite lookup_insert_ne in Hb by congruence. specialize (Hlt _ _ Hb). lia.
      * intros b c k Hb Hc.
        destruct (decide (b = a)) as [->|Hb'], (decide (c = a)) as [->|Hc']; [reflexivity|..].
        -- rewrite lookup_insert_eq in Hb. rewrite lookup_insert_ne in Hc by congruence.
           inversion Hb; subst. specialize (Hlt _ _ Hc). lia.
        -- rewrite lookup_insert_eq in Hc. rewrite lookup_insert_ne in Hb by congruence.
           inversion Hc; subst. specialize (Hlt _ _ Hb). lia.
        -- rewrite lookup_insert_ne in Hb, Hc by congruence. eauto.
Qed.

Lemma ret_Done {A} (x y : A) s s' : ret x s = Done y s' -> x = y /\ s' = s.
Proof. unfold ret. intros H. inversion H. auto. Qed.

Lemma BUG_ON_Done b s u s' : BUG_ON b s = Done u s' -> b = false /\ s' = s.
Proof. unfold BUG_ON, abort, ret. destruct b; intros H; inversion H; auto. Qed.

Lemma get_Done s x s' : get s = Done x s' -> x = s /\ s' = s.
Proof. unfold get. intros H. inversion H. auto. Qed.

Lemma put_gi_evolves x g u s' : put (set_globalInstructions x g) x = Done u s' -> evolves x s'.
Proof. unfold put. intros H. inversion H; subst. apply evolves_frame; reflexivity. Qed.

Ltac to_ev :=
  repeat match goal with
  | H : bind _ _ _ = Done _ _ |- _ =>
      let a := fresh "x" in let s := fresh "st" in let H1 := fresh "He" in
      apply bind_Done in H; destruct H as (a & s & H1 & H); cbv beta in H
  | H : step_pos _ _ _ _ = Done _ _ |- _ => apply step_pos_evolves in H
  | H : incPos _ _ = Done _ _ |- _ => unfold incPos in H
  | H : decPos _ _ = Done _ _ |- _ => unfold decPos in H
  | H : incRef _ _ = Done _ _ |- _ => unfold incRef in H
  | H : decRef _ _ = Done _ _ |- _ => unfold decRef in H
  | H : ret _ _ = Done _ _ |- _ => apply ret_Done in H; destruct H as [? ->]
  | H : deref _ _ = Done _ _ |- _ => apply deref_Done in H; destruct H as [? ->]
  | H : BUG_ON _ _ = Done _ _ |- _ => apply BUG_ON_Done in H; destruct H as [? ->]
  | H : get _ = Done _ _ |- _ => apply get_Done in H; destruct H as [-> ->]
  | H : put (set_globalInstructions _ _) _ = Done _ _ |- _ => apply put_gi_evolves in H
  | H : get_annot_id _ _ = Done _ _ |- _ => apply get_annot_id_evolves in H; destruct H as [H _]
  | H : submit _ _ = Done _ _ |- _ => apply submit_evolves in H
  | H : driver_handleLoad _ _ _ _ = Done _ _ |- _ => apply driver_handleLoad_evolves in H
  | H : driver_handleStore _ _ _ _ = Done _ _ |- _ => apply driver_handleStore_evolves in H
  | H : driver_handleJoin _ _ _ = Done _ _ |- _ => apply driver_handleJoin_evolves in H
  | H : driver_handleCreate _ _ _ = Done _ _ |- _ => apply driver_handleCreate_evolves in H
  | H : driver_handleMalloc _ _ _ = Done _ _ |- _ => apply driver_handleMalloc_evolves in H
  | H : handleStore _ _ _ _ _ _ _ _ _ = Done _ _ |- _ =>
      unfold handleStore in H; cbv beta iota zeta in H
  | H : abort _ _ = Done _ _ |- _ => discriminate H
  | H : (match ?x with _ => _ end) _ = Done _ _ |- _ => destruct x eqn:?
  end.

Ltac merge_ev :=
  repeat match goal with
  | H1 : evolves ?a ?b, H2 : evolves ?b ?c |- _ =>
      pose proof (evolves_trans _ _ _ H1 H2); clear H1 H2
  end.

Lemma run_op_evolves E t op s s' : run_op E t op s = Done tt s' -> evolves s s'.
Proof.
  intros H. destruct op; simpl in H;
  unfold handleLoad, handleStore, handleReadModifyWrite, handleCompareExchange, handleFence,
    handleMalloc, handleFree, handleThreadCreate, handleThreadJoin, handleThreadFinish,
    handleUserBlock, handleMutexLock, handleMutexTryLock, handleMutexUnlock in H.
  all: to_ev; merge_ev; first [assumption | apply evolves_refl].
Qed.

Lemma run_ops_evolves E ops s s' : run_ops E ops s = Done tt s' -> evolves s s'.
Proof.
  revert s. induction ops as [|[t op] rest IH]; intros s H.
  - simpl in H. inversion H; subst. apply evolves_refl.
  - simpl in H. invb H as u s1 H1 H. destruct u.
    exact (evolves_trans _ _ _ (run_op_evolves _ _ _ _ _ H1) (IH _ H)).
Qed.

(** ** Table invariants over whole executions *)

(** Once an address has an initial value recorded, every later sequence of
    operations keeps that entry, and the registered getter keeps returning
    its value. *)
Theorem run_ops_keeps_initial_values E ops s s' a w :
  initVals_wf (initVals_ s) -> run_ops E ops s = Done tt s' -> initVals_ s !! a = Some w ->
  initVals_ s' !! a = Some w /\ initValGetter (initVals_ s') a = toSVal w.
Proof.
  intros Hwf Hrun Ha. destruct (run_ops_evolves _ _ _ _ Hrun) as [Hiv _].
  destruct (Hiv Hwf) as [Hwf' Hkeep]. pose proof (Hkeep _ _ Ha) as Ha'.
  split; [exact Ha'|]. unfold initValGetter. rewrite Ha', (Hwf' _ _ Ha'). reflexivity.
Qed.

Lemma run_ops_keeps_initial_values_witness :
  let E := const_engine [(16, CoInit)] (load_value 7) store_ok None 0 None in
  let ops := [(0, OpStore 16 8 (scalar_of 9) (scalar_of 7) Relaxed Normal);
              (0, OpLoad 16 8 Relaxed (scalar_of 7)); (0, OpUnlock 16 8)] in
  let s := set_initVals init_shim {[16 := scalar_of 5]} in
  initVals_wf (initVals_ s) /\ initVals_ s !! 16 = Some (scalar_of 5) /\
  match run_ops E ops s with
  | Done _ s' => initVals_ s' !! 16 = Some (scalar_of 5) /\ initValGetter (initVals_ s') 16 = 5
  | Aborted _ => False
  end.
Proof.
  intros E ops s.
  assert (Hwf : initVals_wf (initVals_ s)).
  { intros a v Ha. simpl in Ha. apply lookup_singleton_Some in Ha as [_ <-]. reflexivity. }
  assert (Ha : initVals_ s !! 16 = Some (scalar_of 5)) by reflexivity.
  split; [exact Hwf|]. split; [exact Ha|].
  destruct (run_ops E ops s) as [[] s'|k] eqn:H.
  - exact (run_ops_keeps_initial_values E ops s s' 16 (scalar_of 5) Hwf H Ha).
  - vm_compute in H. discriminate H.
Defined.






(** ** Execution start and thread creation *)


Lemma driver_handleCreate_Done E l s r s' :
  driver_handleCreate E l s = Done r s' ->
  r = eng_create E l /\ globalInstructions s' = globalInstructions s /\
  submitted s' = submitted s ++ [l].
Proof. unfold driver_handleCreate, submit, bind, get, put, ret. intros H. inversion H; subst. auto. Qed.



(** A thread creation that completes submits one create label in the
    parent's next position, moves the parent by one, and puts the child at
    index 0 of its own slot, appended when its id is the table's size and
    reset in place otherwise; no other thread moves. *)
Theorem handleThreadCreate_registers_child E c p s s' :
  handleThreadCreate E c p s = Done tt s' -> c <> p ->
  exists pp, pos_of s p = Some pp /\
    submitted s' = submitted s ++ [ThreadCreateLabel (shift_event 1 pp) c p] /\
    pos_of s' c = Some (mkEvent c 0) /\ registered s' c /\
    pos_of s' p = Some (shift_event 1 pp) /\
    (forall t, 0 <= t -> t <> c -> t <> p -> pos_of s' t = pos_of s t) /\
    length (globalInstructions s') =
      (if c =? Z.of_nat (length (globalInstructions s)) then S (length (globalInstructions s))
       else length (globalInstructions s)).
Proof.
  intros H Hcp. unfold handleThreadCreate, incPos in H.
  invb H as pos s1 Hinc H.
  pose proof Hinc as Hinc'. apply step_pos_Done in Hinc' as (Hr & Hs1 & _).
  apply step_pos_Done' in Hinc as (pp & Hpp & -> & Hp1 & Hr1 & Hsb1 & _ & _ & Hoth).
  invb H as g s2 Hcr H. apply driver_handleCreate_Done in Hcr as (-> & Hg2 & Hsub2).
  invb H as u s3 Hb H. apply BUG_ON_Done in Hb as [Hb ->].
  apply negb_false_iff, Z.eqb_eq in Hb. rewrite Hb in H.
  invb H as u' s4 Hb' H. apply BUG_ON_Done in Hb' as [Hm ->]. apply Z.eqb_neq in Hm.
  invb H as x s5 Hget H. apply get_Done in Hget as [-> ->].
  invb H as u'' s6 Hb'' H. apply BUG_ON_Done in Hb'' as [Hgt ->].
  unfold ugt in Hgt. apply Bool.orb_false_iff in Hgt as [Hneg Hle].
  apply Z.ltb_ge in Hneg. apply Z.ltb_ge in Hle.
  assert (Hlen : length (globalInstructions s2) = length (globalInstructions s)).
  { rewrite Hg2, Hs1. simpl. apply length_shift_pos. }
  rewrite Hlen in Hle, H.
  assert (Hne : Z.to_nat c <> Z.to_nat p) by (unfold registered in Hr; lia).
  pose proof Hr as Hpr. unfold registered in Hpr.
  exists pp. split; [exact Hpp|].
  set (fresh := mkAction (mkEvent c 0) Load).
  destruct (uge c (length (globalInstructions s))) eqn:Hu; unfold put in H; inversion H; subst s';
    clear H; unfold pos_of, registered; simpl; rewrite ?length_app; simpl.
  - unfold uge in Hu. apply Bool.orb_true_iff in Hu as [Hu|Hu]; [apply Z.ltb_lt in Hu; lia|].
    apply Z.leb_le in Hu. assert (Hc : c = Z.of_nat (length (globalInstructions s))) by lia.
    rewrite <- Hlen in Hc.
    split; [rewrite Hsub2, Hsb1; reflexivity|]. split.
    { rewrite lookup_app_r by lia. replace (Z.to_nat c - length (globalInstructions s2))%nat
        with 0%nat by lia. reflexivity. }
    split; [lia|]. split.
    { rewrite lookup_app_l by (rewrite Hg2, Hs1; simpl; rewrite length_shift_pos; unfold registered in Hr; lia).
      rewrite Hg2. exact Hp1. }
    split.
    { intros t Ht Htc Htp. rewrite Hc in Htc.
      destruct (decide (Z.to_nat t < length (globalInstructions s2))%nat) as [Hl|Hl].
      - rewrite lookup_app_l by exact Hl. rewrite Hg2.
        specialize (Hoth t ltac:(lia)). unfold pos_of in Hoth. exact Hoth.
      - rewrite lookup_app_r by lia. rewrite lookup_ge_None_2 by (simpl; lia).
        unfold pos_of. rewrite lookup_ge_None_2 by (rewrite <- Hlen; lia). reflexivity. }
    rewrite Hlen in Hc. rewrite Hc, Z.eqb_refl. rewrite ?length_app, ?Hlen. simpl. lia.
  - apply uge_false_iff in Hu.
    split; [rewrite Hsub2, Hsb1; reflexivity|]. split.
    { rewrite list_lookup_insert_eq by (rewrite Hlen; lia). reflexivity. }
    split; [rewrite length_insert; lia|]. split.
    { rewrite list_lookup_insert_ne by exact Hne. rewrite Hg2. exact Hp1. }
    split.
    { intros t Ht Htc Htp. rewrite list_lookup_insert_ne by lia. rewrite Hg2.
      specialize (Hoth t ltac:(lia)). unfold pos_of in Hoth. exact Hoth. }
    rewrite length_insert, Hlen. destruct (Z.eqb_spec c (Z.of_nat (length (globalInstructions s)))); lia.
Qed.

Lemma handleThreadCreate_registers_child_witness :
  let E := const_engine [] (load_value 0) store_ok None 0 None in
  (1 <> 0) /\
  match handleThreadCreate E 1 0 init_shim with
  | Done u s' =>
    exists pp, pos_of init_shim 0 = Some pp /\
    submitted s' = submitted init_shim ++ [ThreadCreateLabel (shift_event 1 pp) 1 0] /\
    pos_of s' 1 = Some (mkEvent 1 0) /\ registered s' 1 /\
    pos_of s' 0 = Some (shift_event 1 pp) /\
    (forall t, 0 <= t -> t <> 1 -> t <> 0 -> pos_of s' t = pos_of init_shim t) /\
    length (globalInstructions s') =
      (if 1 =? Z.of_nat (length (globalInstructions init_shim))
       then S (length (globalInstructions init_shim))
       else length (globalInstructions init_shim))
  | Aborted _ => False
  end.
Proof.
  intros E. assert (Hcp : 1 <> 0) by lia. split; [exact Hcp|].
  destruct (handleThreadCreate E 1 0 init_shim) as [[] s'|k] eqn:H.
  - exact (handleThreadCreate_registers_child E 1 0 init_shim s' H Hcp).
  - vm_compute in H. discriminate H.
Defined.

(** ** The position counters *)


Lemma shift_event_back p : shift_event (-1) (shift_event 1 p) = p.
Proof. destruct p. unfold shift_event. simpl. f_equal. lia. Qed.

(** [incPos] then [decPos] on a registered thread is a round trip: the
    first returns the next position and moves no other thread, the second
    returns the original position and restores the state exactly. *)
Theorem incPos_decPos_roundtrip t s :
  registered s t ->
  exists p s1, pos_of s t = Some p /\ incPos t s = Done (shift_event 1 p) s1 /\
    pos_of s1 t = Some (shift_event 1 p) /\
    (forall t', 0 <= t' -> t' <> t -> pos_of s1 t' = pos_of s t') /\
    decPos t s1 = Done p s.
Proof.
  intros Hr. pose proof Hr as Hr'. unfold registered in Hr'.
  destruct (step_pos_ok Error t 1 s Hr) as (a & Ha & Hs).
  exists (event a), (set_globalInstructions s (shift_pos (globalInstructions s) t 1)).
  split; [unfold pos_of; rewrite Ha; reflexivity|]. split; [exact Hs|].
  pose proof (shift_pos_lookup _ _ 1 _ Ha) as Ha1.
  split; [unfold pos_of; simpl; rewrite Ha1; reflexivity|]. split.
  - intros t' Ht' Hne. unfold pos_of. simpl. rewrite shift_pos_lookup_ne by lia. reflexivity.
  - assert (Hr1 : registered (set_globalInstructions s (shift_pos (globalInstructions s) t 1)) t).
    { unfold registered. simpl. rewrite length_shift_pos. exact Hr. }
    destruct (step_pos_ok Error t (-1) _ Hr1) as (b & Hb & Hs').
    unfold decPos. rewrite Hs'. simpl in Hb. rewrite Ha1 in Hb. inversion Hb; subst b. simpl.
    rewrite shift_event_back. f_equal.
    assert (Hgi : shift_pos (shift_pos (globalInstructions s) t 1) t (-1) = globalInstructions s).
    { unfold shift_pos at 1. rewrite Ha1. unfold shift_pos. rewrite Ha.
      rewrite list_insert_insert_eq. destruct a as [[th idx] k]. cbn [event ev_index ev_thread kind shift_event].
      replace (idx + 1 + -1) with idx by lia. apply list_insert_id. exact Ha. }
    rewrite Hgi. destruct s; reflexivity.
Qed.

Lemma incPos_decPos_roundtrip_witness :
  registered init_shim 0 /\
  exists p s1, pos_of init_shim 0 = Some p /\ incPos 0 init_shim = Done (shift_event 1 p) s1 /\
    pos_of s1 0 = Some (shift_event 1 p) /\
    (forall t', 0 <= t' -> t' <> 0 -> pos_of s1 t' = pos_of init_shim t') /\
    decPos 0 s1 = Done p init_shim.
Proof.
  assert (Hr : registered init_shim 0) by (unfold registered; simpl; lia).
  split; [exact Hr|]. exact (incPos_decPos_roundtrip 0 init_shim Hr).
Defined.

(** ** Try-lock *)

(** Once the try-lock read resolves a value: a nonzero value (lock held)
    returns "not acquired" with no error, submits nothing beyond the read and
    keeps the thread's advance, so the thread is not blocked; a 0 submits
    the try-lock write in the next position and returns "acquired", or the
    error the engine reports for that write. *)
Theorem handleMutexTryLock_resolved E t a sz s r s' :
  handleMutexTryLock E t a sz s = Done r s' ->
  exists p, pos_of s t = Some p /\
    let lr := TrylockCasReadLabel (shift_event 1 p) a sz in
    let res := snd (eng_load E lr) in
    (has_value res = true ->
      (getValue res <> 0 ->
         submitted s' = submitted s ++ [lr] /\ pos_of s' t = Some (shift_event 1 p) /\
         r = MutexLockResult_of false) /\
      (getValue res = 0 ->
         let lw := TrylockCasWriteLabel (shift_event 2 p) a sz in
         submitted s' = submitted s ++ [lr; lw] /\ pos_of s' t = Some (shift_event 2 p) /\
         r = match sr_error (snd (eng_store E lw)) with
             | Some m => MutexLockResult_fromError m
             | None => MutexLockResult_of true
             end)).
Proof.
  unfold handleMutexTryLock. intros H.
  invb H as e s1 Hinc H.
  apply step_pos_Done' in Hinc as (p & Hp & -> & Hp1 & _ & Hs1 & _).
  exists p. split; [exact Hp|]. simpl.
  invb H as res s2 Hld H.
  apply driver_handleLoad_Done in Hld as (-> & Hg2 & Hsub2).
  rewrite <- (pos_of_gi _ _ t Hg2) in Hp1.
  intros Hv. rewrite Hv in H. simpl in H.
  destruct (Z.eqb_spec (getValue (snd (eng_load E (TrylockCasReadLabel (shift_event 1 p) a sz)))) 0)
    as [Hz|Hnz]; simpl in H.
  - split; [intros Hc; contradiction|]. intros _.
    invb H as e s3 Hinc H.
    apply step_pos_Done' in Hinc as (p' & Hp' & -> & Hp3 & _ & Hs3 & _).
    rewrite Hp1 in Hp'. inversion Hp'; subst p'.
    rewrite shift_event_shift_event in H, Hp3. change (1 + 1) with 2 in H, Hp3.
    invb H as sr s4 Hst H.
    apply driver_handleStore_Done in Hst as (-> & Hg4 & Hsub4).
    rewrite <- (pos_of_gi _ _ t Hg4) in Hp3.
    unfold store_is_error in H.
    destruct (sr_error (snd (eng_store E (TrylockCasWriteLabel (shift_event 2 p) a sz)))) as [m|];
      simpl in H.
    + invb H as m' s5 Hd H. unfold ret in Hd, H. inversion Hd; subst. inversion H; subst.
      rewrite Hsub4, Hs3, Hsub2, Hs1, <- app_assoc. auto.
    + unfold ret in H. inversion H; subst.
      rewrite Hsub4, Hs3, Hsub2, Hs1, <- app_assoc. auto.
  - split; [|intros Hc; contradiction]. intros _.
    unfold ret in H. inversion H; subst. rewrite Hsub2, Hs1. auto.
Qed.

Lemma handleMutexTryLock_resolved_witness :
  let E := const_engine [] (load_value 1) store_ok None 0 None in
  match handleMutexTryLock E 0 16 8 init_shim with
  | Done r s' =>
    exists p, pos_of init_shim 0 = Some p /\
    let lr := TrylockCasReadLabel (shift_event 1 p) 16 8 in
    let res := snd (eng_load E lr) in
    (has_value res = true ->
      (getValue res <> 0 ->
         submitted s' = submitted init_shim ++ [lr] /\ pos_of s' 0 = Some (shift_event 1 p) /\
         r = MutexLockResult_of false) /\
      (getValue res = 0 ->
         let lw := TrylockCasWriteLabel (shift_event 2 p) 16 8 in
         submitted s' = submitted init_shim ++ [lr; lw] /\ pos_of s' 0 = Some (shift_event 2 p) /\
         r = match sr_error (snd (eng_store E lw)) with
             | Some m => MutexLockResult_fromError m
             | None => MutexLockResult_of true
             end))
  | Aborted _ => False
  end.
Proof.
  intros E. destruct (handleMutexTryLock E 0 16 8 init_shim) as [r s'|k] eqn:H.
  - exact (handleMutexTryLock_resolved _ _ _ _ _ _ _ H).
  - vm_compute in H. discriminate H.
Defined.

(** ** Uninitialized old values *)

Lemma run_old_val_setter_uninit v calls s s' :
  is_init v = false -> run_old_val_setter v calls s = Done tt s' -> s' = s.
Proof.
  intros Hv. revert s. induction calls as [|[addr co] rest IH]; intros s H.
  - simpl in H. inversion H; reflexivity.
  - simpl in H. invb H as u s1 H1 H.
    destruct co as [na| |]; unfold handleOldVal, bind, get, put, ret, abort in H1;
      rewrite ?Hv in H1; simpl in H1; [| |discriminate H1]; inversion H1; subst; auto.
Qed.

(** A load or a store whose old value (as Miri passes it) is uninitialized
    records no initial value and patches no non-atomic write, whatever
    calls the engine makes to the old-value setter. *)
Theorem uninit_old_val_changes_no_table E t a sz ord old v ord' ty s :
  is_init old = false ->
  (forall r s', handleLoad E t a sz ord old s = Done r s' ->
     initVals_ s' = initVals_ s /\ graph_fixups s' = graph_fixups s) /\
  (forall r s', handleStore E t a sz v old ord' ty s = Done r s' ->
     initVals_ s' = initVals_ s /\ graph_fixups s' = graph_fixups s).
Proof.
  intros Hv. split; intros r s' H.
  - unfold handleLoad, incPos in H. invb H as e s1 Hinc H.
    apply step_pos_Done in Hinc as (_ & -> & _).
    unfold driver_handleLoad, submit, bind, get, put in H.
    destruct (eng_load E _) as [calls res].
    destruct (run_old_val_setter old calls _) as [[] s2|k] eqn:Hrun; [|discriminate H].
    apply run_old_val_setter_uninit in Hrun as ->; [|exact Hv].
    unfold ret in H. inversion H; subst. auto.
  - unfold handleStore, incPos in H. invb H as e s1 Hinc H.
    apply step_pos_Done in Hinc as (_ & -> & _).
    unfold driver_handleStore, submit, bind, get, put in H.
    destruct (eng_store E _) as [calls res].
    destruct (run_old_val_setter old calls _) as [[] s2|k] eqn:Hrun; [|discriminate H].
    apply run_old_val_setter_uninit in Hrun as ->; [|exact Hv].
    unfold ret in H. inversion H; subst. auto.
Qed.

Lemma uninit_old_val_changes_no_table_witness :
  let E := const_engine [(16, CoInit); (16, CoWrite true)] (load_value 0) store_ok None 0 None in
  is_init (mkScalar 0 0 false) = false /\
  (forall r s', handleLoad E 0 16 8 Relaxed (mkScalar 0 0 false) init_shim = Done r s' ->
     initVals_ s' = initVals_ init_shim /\ graph_fixups s' = graph_fixups init_shim) /\
  (forall r s', handleStore E 0 16 8 (scalar_of 1) (mkScalar 0 0 false) Relaxed Normal init_shim
                = Done r s' ->
     initVals_ s' = initVals_ init_shim /\ graph_fixups s' = graph_fixups init_shim).
Proof.
  intros E. assert (Hv : is_init (mkScalar 0 0 false) = false) by reflexivity.
  split; [exact Hv|].
  exact (uninit_old_val_changes_no_table E 0 16 8 Relaxed (mkScalar 0 0 false) (scalar_of 1)
           Relaxed Normal init_shim Hv).
Defined.
